(** * MusicVAE data converters (magenta/models/music_vae/js/data.ts)

    A shallow embedding of the converters of [data.ts]: the encoder of
    [DrumsConverter] (which [DrumRollConverter] inherits), the raw-roll
    decoder of [DrumRollConverter], and the encoder and decoder of
    [MelodyConverter], together with the small part of the tensor library
    they call.  Integers are [Z]; a tensor holds integers (the converters
    only store 0, 1 and labels, which a [Float32Array] rounds to 24
    significant bits); lengths are [nat] and memory is not bounded. *)

From Stdlib Require Import ZArith List Lia Permutation Sorted.
From stdpp Require Import base tactics option list gmap.
Import ListNotations.
Local Open Scope Z_scope.

(** ** JavaScript values *)

(** The exceptions the converters can raise.  [NotMonophonic] and
    [OutOfRange] are the two [Error]s thrown by [MelodyConverter.toTensor]
    (the second carries the offending pitch, which the message prints);
    [TypeError] is what the engine raises when a property of [undefined] is
    read; [DepthTooSmall] is the [Error] of [dl.oneHot] ("depth must be
    >=2", followed by the depth it was given). *)
Inductive Error : Type :=
| NotMonophonic
| OutOfRange (pitch : Z)
| TypeError
| DepthTooSmall (depth : Z).

(** The outcome of a call that may throw (or, for the [async] decoders, of
    the promise it returns). *)
Inductive result (A : Type) : Type :=
| Ok (a : A)
| Throw (e : Error).
Arguments Ok {A} a.
Arguments Throw {A} e.

(** A JavaScript number as the converters use it: an integer, or [None] for
    [NaN], which is what [undefined] becomes in index arithmetic. *)
Definition jsnum : Type := option Z.

Definition jsadd (a b : jsnum) : jsnum :=
  match a, b with Some x, Some y => Some (x + y) | _, _ => None end.

Definition jsmul (a b : jsnum) : jsnum :=
  match a, b with Some x, Some y => Some (x * y) | _, _ => None end.

(** The single-precision value nearest to the integer [v], which is what a
    [Float32Array] keeps of it ([Math.fround]): an integer of magnitude up to
    [2^24] is kept as it is, a larger one is rounded to 24 significant bits,
    ties going to the even significand.  (Integers stand for the finite
    values only: the overflow to [Infinity], from [2^128] on, is not part of
    the model.) *)
Definition fround (v : Z) : Z :=
  let a := Z.abs v in
  if a <=? 2 ^ 24 then v
  else
    let e := Z.log2 a - 23 in
    let q := Z.shiftr a e in
    let r := a - Z.shiftl q e in
    let half := Z.shiftl 1 (e - 1) in
    let q' := if (half <? r) || ((r =? half) && Z.odd q) then q + 1 else q in
    Z.sgn v * Z.shiftl q' e.

(** [arr[index] = v] on a typed array ([Float32Array]): the element is
    written, rounded to single precision, when [index] is an integer inside
    the array; for any other index (negative, past the end, [NaN]) the array
    is left as it is and nothing is thrown. *)
Definition typedArraySet (vals : list Z) (index : jsnum) (v : Z) : list Z :=
  match index with
  | Some i =>
      if (0 <=? i) && (i <? Z.of_nat (length vals))
      then <[Z.to_nat i := fround v]> vals
      else vals
  | None => vals
  end.

(** ** Note sequences *)

(** [NoteSequence.Note], restricted to the three fields the converters read
    and write. *)
Record Note : Type := mkNote {
  pitch : Z;
  quantizedStartStep : Z;
  quantizedEndStep : Z
}.

(** [NoteSequence.Note.create({pitch: p, quantizedStartStep: s})]: the end
    step keeps the default of the message type. *)
Definition createNote (p s : Z) : Note := mkNote p s 0.

(** [n.quantizedEndStep = e]. *)
Definition setEnd (n : Note) (e : Z) : Note :=
  mkNote (pitch n) (quantizedStartStep n) e.

(** ** The tensor library, as far as [data.ts] uses it *)

Definition Tensor1D : Type := list Z.
(** A rank-2 tensor is kept as its list of rows. *)
Definition Tensor2D : Type := list (list Z).

Module TensorBuffer.

(** The library's [TensorBuffer]: a flat, row-major array of values with the
    shape and the strides of the shape. *)
Record t : Type := mk {
  shape : list Z;
  strides : list Z;
  values : list Z
}.

Definition sizeFromShape (shape : list Z) : Z := fold_left Z.mul shape 1.

Fixpoint computeStrides (shape : list Z) : list Z :=
  match shape with
  | [] => []
  | _ :: rest =>
      match rest with
      | [] => []
      | _ => sizeFromShape rest :: computeStrides rest
      end
  end.

(** [dl.buffer(shape)]: a [Float32Array] of zeros (the default dtype).  The
    converters only ask for sizes that are lengths, so the size is never
    negative. *)
Definition buffer (shape : list Z) : t :=
  mk shape (computeStrides shape)
     (replicate (Z.to_nat (sizeFromShape shape)) 0).

(** [locToIndex(locs)]: [0] for rank 0, [locs[0]] for rank 1, and otherwise
    [index = locs[locs.length - 1]] followed by
    [index += strides[i] * locs[i]] for every [i < locs.length - 1].  The
    coordinates enter the sum as they are given: a negative coordinate is
    not counted from the end of its dimension. *)
Definition locToIndex (b : t) (locs : list jsnum) : jsnum :=
  match length (shape b) with
  | O => Some 0
  | S O => hd None locs
  | _ =>
      fold_left (fun index sl => jsadd index (jsmul (Some (fst sl)) (snd sl)))
                (zip (strides b) locs) (List.last locs None)
  end.

(** [b.set(value, ...locs)], that is [values[locToIndex(locs)] = value].
    Every call in [data.ts] passes as many coordinates as the buffer has
    dimensions, which is all that [set] asserts. *)
Definition set (b : t) (value : Z) (locs : list jsnum) : t :=
  mk (shape b) (strides b) (typedArraySet (values b) (locToIndex b locs) value).

(** [b.toTensor()] for a buffer of rank 1 and of rank 2. *)
Definition toTensor1D (b : t) : Tensor1D := values b.

Definition rows (r c : nat) (vals : list Z) : Tensor2D :=
  (fun i => take c (drop (i * c) vals)) <$> seq 0 r.

Definition toTensor2D (b : t) : Tensor2D :=
  match shape b with
  | [r; c] => rows (Z.to_nat r) (Z.to_nat c) (values b)
  | _ => []
  end.

End TensorBuffer.

(** The tensor [dl.oneHot] computes once it has accepted the depth: one row
    of [depth] columns per index, [1] in the column of the index and [0]
    elsewhere. *)
Definition oneHot (indices : Tensor1D) (depth : Z) : Tensor2D :=
  (fun l => (fun j => if l =? j then 1 else 0) <$> seqZ 0 depth) <$> indices.

(** [dl.oneHot(indices, depth)]: the call throws when [depth] is below 2,
    and returns the one-hot tensor otherwise. *)
Definition dl_oneHot (indices : Tensor1D) (depth : Z) : result Tensor2D :=
  if depth <? 2 then Throw (DepthTooSmall depth) else Ok (oneHot indices depth).

(** [argMax] of one row: the first position holding the largest value
    ([0] for a row without columns). *)
Fixpoint argMax_from (best bestv i : Z) (row : list Z) : Z :=
  match row with
  | [] => best
  | v :: rest =>
      if bestv <? v then argMax_from i v (i + 1) rest
      else argMax_from best bestv (i + 1) rest
  end.

Definition argMax_row (row : list Z) : Z :=
  match row with
  | [] => 0
  | v :: rest => argMax_from 0 v 1 rest
  end.

(** [t.argMax(1)] followed by [data()]. *)
Definition argMax (t : Tensor2D) : Tensor1D := argMax_row <$> t.

(** [Array.prototype.forEach] with a body that may throw. *)
Fixpoint forEach {S A : Type} (body : S -> A -> result S) (l : list A) (s : S)
  : result S :=
  match l with
  | [] => Ok s
  | x :: rest =>
      match body s x with
      | Ok s' => forEach body rest s'
      | Throw e => Throw e
      end
  end.

(** [Array.prototype.sort] with the comparator
    [(n1, n2) => n1.quantizedStartStep - n2.quantizedStartStep]: a sort by
    ascending start step, stable as ECMAScript specifies it (notes that
    compare equal keep their order). *)
Fixpoint insertNote (n : Note) (l : list Note) : list Note :=
  match l with
  | [] => [n]
  | m :: rest =>
      if quantizedStartStep n <=? quantizedStartStep m then n :: m :: rest
      else m :: insertNote n rest
  end.

Fixpoint sortNotes (l : list Note) : list Note :=
  match l with
  | [] => []
  | n :: rest => insertNote n (sortNotes rest)
  end.

(** ** DrumsConverter *)

Definition DEFAULT_DRUM_PITCH_CLASSES : list (list Z) :=
  [ [36; 35];
    [38; 27; 28; 31; 32; 33; 34; 37; 39; 40; 56; 65; 66; 75; 85];
    [42; 44; 54; 68; 69; 70; 71; 73; 78; 80];
    [46; 67; 72; 74; 79; 81];
    [45; 29; 41; 61; 64; 84];
    [48; 47; 60; 63; 77; 86; 87];
    [50; 30; 43; 62; 76; 83];
    [49; 55; 57; 58];
    [51; 52; 53; 59; 82] ].

Module DrumsConverter.

(** [DrumsConverterArgs]; [numSteps] is the length of each sequence. *)
Record Args : Type := mkArgs {
  args_numSteps : nat;
  args_numSegments : option Z;
  args_pitchClasses : option (list (list Z))
}.

Record t : Type := mk {
  numSteps : nat;
  numSegments : option Z;
  pitchClasses : list (list Z);
  pitchToClass : gmap Z nat
}.

(** The constructor's loop: class [c], [c+1], ... each register their
    pitches, a later class overwriting an earlier one. *)
Fixpoint register (c : nat) (classes : list (list Z)) (m : gmap Z nat)
  : gmap Z nat :=
  match classes with
  | [] => m
  | cls :: rest =>
      register (S c) rest (fold_left (fun m p => <[p := c]> m) cls m)
  end.

Definition create (args : Args) : t :=
  let classes :=
    match args_pitchClasses args with
    | Some pcs => pcs
    | None => DEFAULT_DRUM_PITCH_CLASSES
    end in
  mk (args_numSteps args) (args_numSegments args) classes
     (register 0 classes ∅).

(** [this.pitchToClass[note.pitch]]: the class, or [undefined]. *)
Definition classOf (c : t) (p : Z) : jsnum :=
  Z.of_nat <$> (pitchToClass c !! p).

(** [drumRoll] after the loop [for (i < numSteps) drumRoll.set(1, i, -1)]. *)
Definition initRoll (c : t) : TensorBuffer.t :=
  fold_left (fun b i => TensorBuffer.set b 1 [Some i; Some (-1)])
            (seqZ 0 (Z.of_nat (numSteps c)))
            (TensorBuffer.buffer
               [Z.of_nat (numSteps c); Z.of_nat (length (pitchClasses c)) + 1]).

(** The body of [noteSequence.notes.forEach]. *)
Definition addNote (c : t) (b : TensorBuffer.t) (note : Note)
  : TensorBuffer.t :=
  let b1 := TensorBuffer.set b 1
              [Some (quantizedStartStep note); classOf c (pitch note)] in
  TensorBuffer.set b1 0 [Some (quantizedStartStep note); Some (-1)].

(** [toTensor]: nothing in it throws. *)
Definition toTensor (c : t) (notes : list Note) : result Tensor2D :=
  Ok (TensorBuffer.toTensor2D (fold_left (addNote c) notes (initRoll c))).

End DrumsConverter.

(** ** DrumRollConverter *)

Module DrumRollConverter.

(** The inner loop over the columns [p], [p+1], ... of one row: every
    column of the slice is read ([p < pitches.length]), and a cell counts
    when it is not zero.  [this.pitchClasses[p][0]] throws when there is no
    class [p]; an empty class gives [undefined], which [Note.create]
    replaces by the default pitch. *)
Fixpoint rowNotes (c : DrumsConverter.t) (s : Z) (p : nat)
    (pitches : list Z) (notes : list Note) : result (list Note) :=
  match pitches with
  | [] => Ok notes
  | v :: rest =>
      if v =? 0 then rowNotes c s (S p) rest notes
      else
        match DrumsConverter.pitchClasses c !! p with
        | Some cls =>
            rowNotes c s (S p) rest (notes ++ [mkNote (hd 0 cls) s (s + 1)])
        | None => Throw TypeError
        end
  end.

(** The outer loop over the rows [s], [s+1], ... *)
Fixpoint rollNotes (c : DrumsConverter.t) (s : Z) (roll : Tensor2D)
    (notes : list Note) : result (list Note) :=
  match roll with
  | [] => Ok notes
  | rollSlice :: rest =>
      match rowNotes c s 0 rollSlice notes with
      | Ok notes' => rollNotes c (s + 1) rest notes'
      | Throw e => Throw e
      end
  end.

Definition toNoteSequence (c : DrumsConverter.t) (roll : Tensor2D)
  : result (list Note) :=
  rollNotes c 0 roll [].

End DrumRollConverter.

(** ** DrumsConverter.toNoteSequence *)

(** The decoder of [DrumsConverter], which [DrumRollConverter] overrides: it
    reads one label per step and emits a note for every bit of the label
    below the number of classes. *)
Module DrumsLabelDecoder.

(** [labels[s] >> p & 1] on 32-bit integers: the shift count is taken
    modulo 32. *)
Definition labelBit (label : Z) (p : nat) : Z :=
  Z.land (Z.shiftr label (Z.of_nat p mod 32)) 1.

(** The inner loop over the classes [p], [p+1], ..., [p+count-1]; an empty
    class gives the default pitch. *)
Fixpoint classNotes (c : DrumsConverter.t) (s label : Z) (p count : nat)
    (notes : list Note) : list Note :=
  match count with
  | O => notes
  | S count' =>
      classNotes c s label (S p) count'
        (if labelBit label p =? 0 then notes
         else notes ++
              [mkNote (hd 0 (nth p (DrumsConverter.pitchClasses c) [])) s (s + 1)])
  end.

(** The outer loop over the steps [s], [s+1], ... *)
Fixpoint stepNotes (c : DrumsConverter.t) (s : Z) (labels : list Z)
    (notes : list Note) : list Note :=
  match labels with
  | [] => notes
  | label :: rest =>
      stepNotes c (s + 1) rest
        (classNotes c s label 0 (length (DrumsConverter.pitchClasses c)) notes)
  end.

Definition toNoteSequence (c : DrumsConverter.t) (oh : Tensor2D)
  : result (list Note) :=
  Ok (stepNotes c 0 (argMax oh) []).

End DrumsLabelDecoder.

(** ** MelodyConverter *)

Module MelodyConverter.

(** [MelodyConverterArgs]; [numSteps] is the length of each sequence. *)
Record Args : Type := mkArgs {
  args_numSteps : nat;
  args_minPitch : Z;
  args_maxPitch : Z;
  args_numSegments : option Z
}.

Record t : Type := mk {
  numSteps : nat;
  numSegments : option Z;
  minPitch : Z;
  maxPitch : Z;
  depth : Z
}.

Definition NOTE_OFF : Z := 1.
Definition FIRST_PITCH : Z := 2.

Definition create (args : Args) : t :=
  mk (args_numSteps args) (args_numSegments args)
     (args_minPitch args) (args_maxPitch args)
     (args_maxPitch args - args_minPitch args + 3).

(** The body of [sortedNotes.forEach]; the state is the buffer [mel] and
    the variable [lastEnd].  Both [mel.set] store into the [Float32Array] of
    the buffer. *)
Definition placeNote (c : t) (st : TensorBuffer.t * Z) (n : Note)
  : result (TensorBuffer.t * Z) :=
  let (mel, lastEnd) := st in
  if quantizedStartStep n <? lastEnd then Throw NotMonophonic
  else if (pitch n <? minPitch c) || (pitch n >? maxPitch c)
  then Throw (OutOfRange (pitch n))
  else
    let mel1 := TensorBuffer.set mel (pitch n - minPitch c + FIRST_PITCH)
                  [Some (quantizedStartStep n)] in
    let mel2 := TensorBuffer.set mel1 NOTE_OFF [Some (quantizedEndStep n)] in
    Ok (mel2, quantizedEndStep n).

(** The per-step labels [mel] holds after the loop. *)
Definition labelsOf (c : t) (sortedNotes : list Note) : result Tensor1D :=
  match forEach (placeNote c) sortedNotes
                (TensorBuffer.buffer [Z.of_nat (numSteps c)], -1) with
  | Ok (mel, _) => Ok (TensorBuffer.toTensor1D mel)
  | Throw e => Throw e
  end.

(** [toTensor].  [noteSequence.notes.sort] sorts the caller's array where
    it is and returns that same array, so the call is modelled with the
    array passed through: the first component is the content of
    [noteSequence.notes] when the call ends (normally or by a throw), the
    second what the call returns.  The loop runs before [dl.oneHot] checks
    the depth, so an error of the loop comes first. *)
Definition toTensor (c : t) (notes : list Note)
  : list Note * result Tensor2D :=
  let sortedNotes := sortNotes notes in
  (sortedNotes,
   match labelsOf c sortedNotes with
   | Ok labels => dl_oneHot labels (depth c)
   | Throw e => Throw e
   end).

(** One iteration of the decoding loop, the [switch (label)]: the state is
    [currNote] and [noteSequence.notes]. *)
Definition decodeStep (c : t) (st : option Note * list Note) (s : Z)
    (label : Z) : option Note * list Note :=
  let (currNote, notes) := st in
  match label with
  | 0 => st
  | 1 =>
      match currNote with
      | Some n => (None, notes ++ [setEnd n s])
      | None => st
      end
  | _ =>
      (Some (createNote (label - FIRST_PITCH + minPitch c) s),
       match currNote with
       | Some n => notes ++ [setEnd n s]
       | None => notes
       end)
  end.

(** [for (let s = from; s < from + count; ++s)] over [labels[s]]. *)
Fixpoint decodeLoop (c : t) (labels : list Z) (from count : nat)
    (st : option Note * list Note) : option Note * list Note :=
  match count with
  | O => st
  | S count' =>
      decodeLoop c labels (S from) count'
        (decodeStep c st (Z.of_nat from) (nth from labels 0))
  end.

(** The whole loop and the closing of a note that is still open. *)
Definition decodeLabels (c : t) (labels : list Z) : list Note :=
  let (currNote, notes) :=
    decodeLoop c labels 0 (length labels) (None, []) in
  match currNote with
  | Some n => notes ++ [setEnd n (Z.of_nat (length labels))]
  | None => notes
  end.

Definition toNoteSequence (c : t) (oh : Tensor2D) : result (list Note) :=
  Ok (decodeLabels c (argMax oh)).

End MelodyConverter.

(** ** The abstract [DataConverter] *)

Class DataConverter (C : Type) : Type := {
  dc_numSteps : C -> nat;
  dc_numSegments : C -> option Z;
  dc_NUM_SPLITS : C -> Z;
  dc_toTensor : C -> list Note -> list Note * result Tensor2D;
  dc_toNoteSequence : C -> Tensor2D -> result (list Note)
}.

#[export] Instance MelodyConverter_DataConverter
  : DataConverter MelodyConverter.t := {
  dc_numSteps := MelodyConverter.numSteps;
  dc_numSegments := MelodyConverter.numSegments;
  dc_NUM_SPLITS := fun _ => 0;
  dc_toTensor := MelodyConverter.toTensor;
  dc_toNoteSequence := MelodyConverter.toNoteSequence
}.

(** [DrumRollConverter] inherits [toTensor] from [DrumsConverter], which
    leaves the caller's notes as they are. *)
#[export] Instance DrumRollConverter_DataConverter
  : DataConverter DrumsConverter.t := {
  dc_numSteps := DrumsConverter.numSteps;
  dc_numSegments := DrumsConverter.numSegments;
  dc_NUM_SPLITS := fun _ => 0;
  dc_toTensor := fun c notes => (notes, DrumsConverter.toTensor c notes);
  dc_toNoteSequence := DrumRollConverter.toNoteSequence
}.

(** * Vocabulary of the properties *)

(** ** Melodies *)

(** The order the comparator of [toTensor] sorts by. *)
Definition startLe (a b : Note) : Prop :=
  quantizedStartStep a <= quantizedStartStep b.

(** The row [oneHot] builds for the label [l]. *)
Definition oneHotRow (depth l : Z) : list Z :=
  (fun j => if l =? j then 1 else 0) <$> seqZ 0 depth.

(** The pitch of the note passes the range check. *)
Definition inRange (c : MelodyConverter.t) (n : Note) : Prop :=
  MelodyConverter.minPitch c <= pitch n <= MelodyConverter.maxPitch c.

(** The two checks of the encoder's loop pass on every note of [l] when the
    loop starts with [lastEnd]. *)
Fixpoint accepted (c : MelodyConverter.t) (lastEnd : Z) (l : list Note) : Prop :=
  match l with
  | [] => True
  | n :: rest =>
      lastEnd <= quantizedStartStep n /\ inRange c n /\
      accepted c (quantizedEndStep n) rest
  end.


(** Two notes occupy disjoint spans of steps. *)
Definition disjointNotes (a b : Note) : Prop :=
  quantizedEndStep a <= quantizedStartStep b \/
  quantizedEndStep b <= quantizedStartStep a.

(** No two notes of the sequence overlap. *)
Fixpoint nonOverlapping (l : list Note) : Prop :=
  match l with
  | [] => True
  | n :: rest => Forall (disjointNotes n) rest /\ nonOverlapping rest
  end.

(** Every note of [l] passes both checks and lies on the timeline of
    [steps] steps with a positive duration. *)
Fixpoint placeable (c : MelodyConverter.t) (steps lastEnd : Z) (l : list Note)
  : Prop :=
  match l with
  | [] => True
  | n :: rest =>
      lastEnd <= quantizedStartStep n /\
      0 <= quantizedStartStep n /\
      quantizedStartStep n < quantizedEndStep n /\
      quantizedEndStep n <= steps /\
      inRange c n /\
      placeable c steps (quantizedEndStep n) rest
  end.

(** A label [oneHot] and [argMax] carry unchanged. *)
Definition labelOK (c : MelodyConverter.t) (v : Z) : Prop :=
  v = 0 \/ 0 <= v < MelodyConverter.depth c.

(** What the encoder has built after placing the notes [placed], the last of
    them ending at [lastEnd]: decoding the steps before [lastEnd] has
    emitted all placed notes but the last and holds that one open; the step
    [lastEnd] holds a note-off and every later step is untouched. *)
Definition placedInv (c : MelodyConverter.t) (vals : list Z) (lastEnd : Z)
    (placed : list Note) : Prop :=
  exists (e : nat) (cur : option Note) (out : list Note),
    MelodyConverter.decodeLoop c vals 0 e (None, []) = (cur, out) /\
    (forall i, (e < i)%nat -> nth i vals 0 = 0) /\
    (e <= length vals)%nat /\
    match cur with
    | None => lastEnd = -1 /\ e = 0%nat /\ nth 0 vals 0 = 0 /\ placed = []
    | Some n =>
        lastEnd = Z.of_nat e /\
        ((e < length vals)%nat -> nth e vals 0 = 1) /\
        placed = out ++ [setEnd n (Z.of_nat e)]
    end.

(** A monophonic melody from step [lo] on: every note starts no earlier than
    the previous one ends, lasts at least one step and has its pitch in
    range. *)
Fixpoint wellFormed (c : MelodyConverter.t) (lo : Z) (l : list Note) : Prop :=
  match l with
  | [] => True
  | n :: rest =>
      lo <= quantizedStartStep n /\
      quantizedStartStep n < quantizedEndStep n /\
      inRange c n /\
      wellFormed c (quantizedEndStep n) rest
  end.

(** The end step of the last note, or [lo] when there is none. *)
Definition lastEndOf (lo : Z) (l : list Note) : Z :=
  fold_left (fun _ n => quantizedEndStep n) l lo.

(** The state of the decoding loop before step [s]. *)
Definition decodeWF (c : MelodyConverter.t) (s : Z)
    (st : option Note * list Note) : Prop :=
  wellFormed c 0 (snd st) /\ 0 <= s /\
  match fst st with
  | Some n =>
      lastEndOf 0 (snd st) <= quantizedStartStep n /\
      quantizedStartStep n < s /\ inRange c n
  | None => lastEndOf 0 (snd st) <= s
  end.

(** ** Drum rolls *)

(** The number of pitch classes. *)
Definition classCount (c : DrumsConverter.t) : nat :=
  length (DrumsConverter.pitchClasses c).

(** The width of a row of the roll. *)
Definition width (c : DrumsConverter.t) : Z := Z.of_nat (classCount c) + 1.

(** [roll.slice([0, 0], [roll.shape[0], classCount])]: the roll without its
    last column, which is the tensor [DrumRollConverter.toNoteSequence]
    expects. *)
Definition classColumns (c : DrumsConverter.t) (roll : Tensor2D) : Tensor2D :=
  take (classCount c) <$> roll.

(** [pitchClasses[k][0]], with the default pitch for an empty class. *)
Definition canonicalPitch (c : DrumsConverter.t) (k : nat) : Z :=
  hd 0 (nth k (DrumsConverter.pitchClasses c) []).

(** The note starts at step [s] and its pitch is registered in class [k]. *)
Definition hits (c : DrumsConverter.t) (s : Z) (k : nat) (note : Note) : bool :=
  (quantizedStartStep note =? s) &&
  bool_decide (DrumsConverter.pitchToClass c !! pitch note = Some k).

(** Some note of the sequence hits the cell of step [s] and class [k]. *)
Definition activeCell (c : DrumsConverter.t) (notes : list Note) (s : Z) (k : nat)
  : bool :=
  existsb (hits c s k) notes.

(** One unit-length note with the canonical pitch for every active cell,
    step by step and class by class. *)
Definition activeNotes (c : DrumsConverter.t) (notes : list Note) : list Note :=
  flat_map
    (fun s =>
       flat_map
         (fun k =>
            if activeCell c notes (Z.of_nat s) k
            then [mkNote (canonicalPitch c k) (Z.of_nat s) (Z.of_nat s + 1)]
            else [])
         (seq 0 (classCount c)))
    (seq 0 (DrumsConverter.numSteps c)).

(** The pitch of the note is registered in some class. *)
Definition registered (c : DrumsConverter.t) (note : Note) : Prop :=
  is_Some (DrumsConverter.pitchToClass c !! pitch note).

(** The buffer has the shape and strides of the roll. *)
Definition rollShaped (c : DrumsConverter.t) (b : TensorBuffer.t) : Prop :=
  TensorBuffer.shape b = [Z.of_nat (DrumsConverter.numSteps c); width c] /\
  TensorBuffer.strides b = [1 * width c].

(** The flat index of the cell of step [s] and class [k]. *)
Definition cellIndex (c : DrumsConverter.t) (s k : nat) : nat :=
  (s * Z.to_nat (width c) + k)%nat.

(** ** Further vocabulary *)

(** The note with its end cut at the end of a timeline of [steps] steps. *)
Definition clipEnd (steps : Z) (n : Note) : Note :=
  setEnd n (Z.min (quantizedEndStep n) steps).

(** Like [placeable], with only the start of every note required to lie on
    the timeline. *)
Fixpoint startsOnTimeline (c : MelodyConverter.t) (steps lastEnd : Z)
    (l : list Note) : Prop :=
  match l with
  | [] => True
  | n :: rest =>
      lastEnd <= quantizedStartStep n /\
      0 <= quantizedStartStep n /\
      quantizedStartStep n < quantizedEndStep n /\
      quantizedStartStep n < steps /\
      inRange c n /\
      startsOnTimeline c steps (quantizedEndStep n) rest
  end.

(** The start step and pitch of a note. *)
Definition onsetOf (n : Note) : Z * Z := (quantizedStartStep n, pitch n).

(** The note-ons of a label sequence: for every step holding a label of at
    least 2, the step and the pitch of the label. *)
Definition noteOns (c : MelodyConverter.t) (labels : list Z) : list (Z * Z) :=
  flat_map
    (fun s =>
       if 2 <=? nth s labels 0
       then [(Z.of_nat s, nth s labels 0 - 2 + MelodyConverter.minPitch c)]
       else [])
    (seq 0 (length labels)).

(** The note lasts until a step [e] that ends it: every step strictly
    between its start and [e] holds label 0, and [e] is the number of steps
    or holds a label other than 0. *)
Definition endsAtNextEvent (labels : list Z) (n : Note) : Prop :=
  exists s e : nat,
    quantizedStartStep n = Z.of_nat s /\ quantizedEndStep n = Z.of_nat e /\
    (s < e <= length labels)%nat /\
    (forall j, (s < j < e)%nat -> nth j labels 0 = 0) /\
    (e = length labels \/ nth e labels 0 <> 0).

(** The onsets of the notes the loop has emitted or holds open. *)
Definition stateOnsets (st : option Note * list Note) : list (Z * Z) :=
  (onsetOf <$> snd st) ++
  match fst st with Some n => [onsetOf n] | None => [] end.

(** The state of the loop before step [s], as to where notes end. *)
Definition decodeEnds (labels : list Z) (s : nat) (st : option Note * list Note)
  : Prop :=
  Forall (endsAtNextEvent labels) (snd st) /\
  match fst st with
  | Some n =>
      exists s0 : nat,
        quantizedStartStep n = Z.of_nat s0 /\ (s0 < s)%nat /\
        forall j, (s0 < j < s)%nat -> nth j labels 0 = 0
  | None => True
  end.

(** The cell the encoder leaves in the last column of row [r]: the writes
    aimed at column [-1] of row [r + 1] land there. *)
Definition lastCell (c : DrumsConverter.t) (notes : list Note) (r : nat) : Z :=
  if (Z.of_nat r + 1 <? Z.of_nat (DrumsConverter.numSteps c)) &&
     negb (existsb (fun n => quantizedStartStep n =? Z.of_nat r + 1) notes)
  then 1 else 0.

(** The roll described cell by cell. *)
Definition expectedRoll (c : DrumsConverter.t) (notes : list Note) : Tensor2D :=
  (fun r =>
     ((fun k => if activeCell c notes (Z.of_nat r) k then 1 else 0)
        <$> seq 0 (classCount c)) ++ [lastCell c notes r])
    <$> seq 0 (DrumsConverter.numSteps c).

(** Every cell in a column without a class holds 0. *)
Definition extraCellsZero (c : DrumsConverter.t) (roll : Tensor2D) : bool :=
  forallb (fun row => forallb (fun v => v =? 0) (drop (classCount c) row)) roll.

(** One unit-length note with the canonical pitch per nonzero cell of row
    [s], column by column. *)
Definition rowCellNotes (c : DrumsConverter.t) (s : Z) (row : list Z) : list Note :=
  flat_map
    (fun p =>
       if nth p row 0 =? 0 then []
       else [mkNote (canonicalPitch c p) s (s + 1)])
    (seq 0 (length row)).

(** The same for every row of a roll, row by row. *)
Definition cellNotes (c : DrumsConverter.t) (roll : Tensor2D) : list Note :=
  flat_map (fun s => rowCellNotes c (Z.of_nat s) (nth s roll []))
           (seq 0 (length roll)).

(** "Converting the bit string to an integer", as the documentation of
    [DrumsConverter] puts it: column [p] of the row is bit [p] of the
    label. *)
Definition rowLabel (row : list Z) : Z :=
  fold_right (fun v acc => 2 * acc + Z.b2z (negb (v =? 0))) 0 row.

(** ** Running examples *)

Definition melody4 : MelodyConverter.t :=
  MelodyConverter.create (MelodyConverter.mkArgs 4 60 61 None).

Definition drums2 : DrumsConverter.t :=
  DrumsConverter.create (DrumsConverter.mkArgs 2 None (Some [[36]; [38]])).

(** * Proofs *)

(** ** Facts about the library model *)

(** Integers of magnitude up to [2^24] are stored exactly. *)
Lemma fround_small (v : Z) : Z.abs v <= 2 ^ 24 -> fround v = v.
Proof. intros H. unfold fround. by rewrite (proj2 (Z.leb_le _ _) H). Qed.

Lemma fround_0 : fround 0 = 0.
Proof. reflexivity. Qed.

Lemma fround_1 : fround 1 = 1.
Proof. reflexivity. Qed.

(** Above [2^24] odd integers are not representable: a tie goes to the even
    significand. *)
Example fround_ties_to_even :
  fround (2 ^ 24 + 1) = 2 ^ 24 /\ fround (2 ^ 24 + 3) = 2 ^ 24 + 4.
Proof. split; reflexivity. Qed.

Lemma nth_typedArraySet (vals : list Z) (j v : Z) (i : nat) :
  nth i (typedArraySet vals (Some j) v) 0 =
  if decide (Z.of_nat i = j /\ (i < length vals)%nat) then fround v
  else nth i vals 0.
Proof.
  unfold typedArraySet.
  destruct (0 <=? j) eqn:H0; destruct (j <? Z.of_nat (length vals)) eqn:H1; simpl;
    case_decide as Hd; try reflexivity; try lia.
  - destruct Hd as [<- Hlt]. rewrite Nat2Z.id, !nth_lookup.
    by rewrite list_lookup_insert_eq.
  - rewrite !nth_lookup, list_lookup_insert_ne; [done|]. lia.
Qed.

Lemma length_typedArraySet (vals : list Z) (j : jsnum) (v : Z) :
  length (typedArraySet vals j v) = length vals.
Proof.
  unfold typedArraySet. destruct j as [j|]; [|done].
  destruct (_ && _); [apply length_insert | done].
Qed.

Lemma set_rank1 (b : TensorBuffer.t) (v i : Z) :
  length (TensorBuffer.shape b) = 1%nat ->
  TensorBuffer.values (TensorBuffer.set b v [Some i]) =
  typedArraySet (TensorBuffer.values b) (Some i) v.
Proof. intros H. unfold TensorBuffer.set, TensorBuffer.locToIndex. by rewrite H. Qed.

(** ** Facts about sorting *)

Lemma insertNote_perm (n : Note) (l : list Note) :
  Permutation (n :: l) (insertNote n l).
Proof.
  induction l as [|m l IH]; simpl; [done|].
  destruct (_ <=? _); [done|].
  rewrite perm_swap. by constructor.
Qed.

Lemma sortNotes_perm (l : list Note) : Permutation l (sortNotes l).
Proof.
  induction l as [|n l IH]; simpl; [done|].
  rewrite <- insertNote_perm. by constructor.
Qed.

Lemma insertNote_sorted (n : Note) (l : list Note) :
  StronglySorted startLe l -> StronglySorted startLe (insertNote n l).
Proof.
  induction 1 as [|m l Hs IH Hall]; simpl.
  - repeat constructor.
  - destruct (quantizedStartStep n <=? quantizedStartStep m) eqn:Hle.
    + apply Z.leb_le in Hle. constructor; [by constructor|].
      constructor; [done|].
      eapply Forall_impl; [exact Hall|]. unfold startLe. intros; lia.
    + apply Z.leb_gt in Hle. constructor; [done|].
      rewrite <- insertNote_perm. constructor; [unfold startLe; lia | done].
Qed.

Lemma sortNotes_sorted (l : list Note) : StronglySorted startLe (sortNotes l).
Proof.
  induction l; simpl; [constructor | by apply insertNote_sorted].
Qed.

Lemma sortNotes_id (l : list Note) :
  StronglySorted startLe l -> sortNotes l = l.
Proof.
  induction 1 as [|n l Hs IH Hall]; simpl; [done|].
  rewrite IH. destruct Hall as [|m l' Hm _]; simpl; [done|].
  unfold startLe in Hm. destruct (Z.leb_spec (quantizedStartStep n) (quantizedStartStep m)); [done | lia].
Qed.

Lemma insertNote_filter (s : Z) (n : Note) (l : list Note) :
  filter (fun m => quantizedStartStep m = s) (insertNote n l) =
  filter (fun m => quantizedStartStep m = s) (n :: l).
Proof.
  induction l as [|m l IH]; simpl; [done|].
  destruct (Z.leb_spec (quantizedStartStep n) (quantizedStartStep m)) as [Hle|Hgt]; [done|].
  rewrite !filter_cons in *.
  destruct (decide (quantizedStartStep m = s)), (decide (quantizedStartStep n = s));
    rewrite IH; try done; lia.
Qed.

Lemma sortNotes_stable (s : Z) (l : list Note) :
  filter (fun m => quantizedStartStep m = s) (sortNotes l) =
  filter (fun m => quantizedStartStep m = s) l.
Proof.
  induction l as [|n l IH]; simpl; [done|].
  rewrite insertNote_filter, !filter_cons, IH. done.
Qed.

Create HintDb notes.
#[export] Hint Resolve sortNotes_perm sortNotes_sorted : notes.

Lemma sorted_lookup_le (l : list Note) (i j : nat) (a b : Note) :
  StronglySorted startLe l -> (i <= j)%nat ->
  l !! i = Some a -> l !! j = Some b ->
  quantizedStartStep a <= quantizedStartStep b.
Proof.
  intros Hs. revert i j. induction Hs as [|n l Hs IH Hall]; intros i j Hij Ha Hb; [done|].
  destruct i as [|i], j as [|j]; simpl in *; simplify_eq; try lia.
  - rewrite Forall_forall in Hall. apply Hall.
    apply list_elem_of_lookup. eauto.
  - eapply IH; [|done..]. lia.
Qed.

(** ** Facts about the melody decoder *)

Section MelodyDecode.
Context (c : MelodyConverter.t).

Lemma decodeStep_0 (st : option Note * list Note) (s : Z) :
  MelodyConverter.decodeStep c st s 0 = st.
Proof. by destruct st. Qed.

Lemma decodeStep_1 (cur : option Note) (out : list Note) (s : Z) :
  MelodyConverter.decodeStep c (cur, out) s 1 =
  match cur with
  | Some n => (None, out ++ [setEnd n s])
  | None => (None, out)
  end.
Proof. by destruct cur. Qed.

Lemma decodeStep_on (cur : option Note) (out : list Note) (s label : Z) :
  2 <= label ->
  MelodyConverter.decodeStep c (cur, out) s label =
  (Some (createNote (label - 2 + MelodyConverter.minPitch c) s),
   match cur with Some n => out ++ [setEnd n s] | None => out end).
Proof.
  intros H. destruct label as [|p|p]; try lia.
  destruct p; try reflexivity; lia.
Qed.

Lemma decodeLoop_add (labels : list Z) (from k1 k2 : nat) st :
  MelodyConverter.decodeLoop c labels from (k1 + k2) st =
  MelodyConverter.decodeLoop c labels (from + k1) k2
    (MelodyConverter.decodeLoop c labels from k1 st).
Proof.
  revert from st. induction k1 as [|k1 IH]; intros from st; simpl.
  - by rewrite Nat.add_0_r.
  - rewrite IH. f_equal. lia.
Qed.

Lemma decodeLoop_ext (l1 l2 : list Z) (from k : nat) st :
  (forall i, (from <= i < from + k)%nat -> nth i l1 0 = nth i l2 0) ->
  MelodyConverter.decodeLoop c l1 from k st =
  MelodyConverter.decodeLoop c l2 from k st.
Proof.
  revert from st. induction k as [|k IH]; intros from st H; simpl; [done|].
  rewrite (H from) by lia. apply IH. intros i Hi. apply H. lia.
Qed.

Lemma decodeLoop_zeros (labels : list Z) (from k : nat) st :
  (forall i, (from <= i < from + k)%nat -> nth i labels 0 = 0) ->
  MelodyConverter.decodeLoop c labels from k st = st.
Proof.
  revert from st. induction k as [|k IH]; intros from st H; simpl; [done|].
  rewrite (H from) by lia. rewrite decodeStep_0. apply IH.
  intros i Hi. apply H. lia.
Qed.

(** Steps holding label 0 can be skipped. *)
Lemma decodeLoop_skip (labels : list Z) (from k s : nat) st :
  (from <= s <= from + k)%nat ->
  (forall i, (from <= i < s)%nat -> nth i labels 0 = 0) ->
  MelodyConverter.decodeLoop c labels from k st =
  MelodyConverter.decodeLoop c labels s (from + k - s) st.
Proof.
  intros Hs Hz.
  replace k with ((s - from) + (from + k - s))%nat at 1 by lia.
  rewrite decodeLoop_add.
  rewrite (decodeLoop_zeros labels from (s - from)).
  - f_equal. lia.
  - intros i Hi. apply Hz. lia.
Qed.

Lemma placedInv_init (n : nat) : placedInv c (replicate n 0) (-1) [].
Proof.
  exists 0%nat, None, []. simpl. split; [done|].
  assert (forall i, nth i (replicate n 0) 0 = 0) as Hz.
  { intros i. rewrite nth_lookup. destruct (replicate n 0 !! i) eqn:E; [|done].
    apply lookup_replicate in E. simpl. tauto. }
  repeat split; auto. lia.
Qed.

Lemma placedInv_decode (vals : list Z) (lastEnd : Z) (placed : list Note) :
  placedInv c vals lastEnd placed ->
  MelodyConverter.decodeLabels c vals = placed.
Proof.
  intros (e & cur & out & Hloop & Hz & He & Hcur).
  unfold MelodyConverter.decodeLabels.
  replace (length vals) with (e + (length vals - e))%nat at 1 by lia.
  rewrite decodeLoop_add, Hloop, Nat.add_0_l.
  destruct cur as [n|].
  - destruct Hcur as (_ & H1 & ->).
    destruct (length vals - e)%nat as [|k] eqn:Ek;
      cbn [MelodyConverter.decodeLoop].
    + replace (length vals) with e by lia. done.
    + rewrite H1 by lia. rewrite decodeStep_1.
      rewrite decodeLoop_zeros; [done|]. intros i Hi. apply Hz. lia.
  - destruct Hcur as (_ & -> & H0 & ->).
    rewrite decodeLoop_zeros; [cbn in Hloop; congruence|].
    intros [|i] Hi; [done|]. apply Hz. lia.
Qed.

Lemma placedInv_step (vals : list Z) (lastEnd : Z) (placed : list Note) (m : Note) :
  placedInv c vals lastEnd placed ->
  lastEnd <= quantizedStartStep m ->
  0 <= quantizedStartStep m ->
  quantizedStartStep m < quantizedEndStep m ->
  quantizedEndStep m <= Z.of_nat (length vals) ->
  MelodyConverter.minPitch c <= pitch m ->
  pitch m - MelodyConverter.minPitch c + MelodyConverter.FIRST_PITCH <= 2 ^ 24 ->
  placedInv c
    (typedArraySet
       (typedArraySet vals (Some (quantizedStartStep m))
          (pitch m - MelodyConverter.minPitch c + MelodyConverter.FIRST_PITCH))
       (Some (quantizedEndStep m)) MelodyConverter.NOTE_OFF)
    (quantizedEndStep m) (placed ++ [m]).
Proof.
  intros (e & cur & out & Hloop & Hz & He & Hcur) Hle H0 Hlt Hend Hmin Hmax.
  destruct m as [p sZ eZ];
    cbn [pitch quantizedStartStep quantizedEndStep] in *.
  set (lab := p - MelodyConverter.minPitch c + MelodyConverter.FIRST_PITCH).
  set (vals' := typedArraySet (typedArraySet vals (Some sZ) lab) (Some eZ)
                  MelodyConverter.NOTE_OFF).
  pose (s := Z.to_nat sZ). pose (e' := Z.to_nat eZ).
  assert (Z.of_nat s = sZ) as Hs by lia.
  assert (Z.of_nat e' = eZ) as He' by lia.
  clearbody s e'.
  assert (s < e' <= length vals)%nat as Hord by lia.
  assert (forall i, nth i vals' 0 =
            if decide (i = e' /\ (i < length vals)%nat) then 1
            else if decide (i = s) then lab else nth i vals 0) as Hnth.
  { intros i. unfold vals'. rewrite nth_typedArraySet, length_typedArraySet.
    rewrite nth_typedArraySet. unfold MelodyConverter.NOTE_OFF.
    rewrite fround_1, (fround_small lab)
      by (unfold lab, MelodyConverter.FIRST_PITCH in *; lia).
    repeat case_decide; try reflexivity; lia. }
  assert (2 <= lab) as Hlab by (unfold lab, MelodyConverter.FIRST_PITCH; lia).
  assert (lab - 2 + MelodyConverter.minPitch c = p) as Hp
    by (unfold lab, MelodyConverter.FIRST_PITCH; lia).
  assert (e <= s)%nat as Hes.
  { destruct cur; [destruct Hcur as (-> & _); lia | destruct Hcur as (_ & -> & _); lia]. }
  assert (length vals' = length vals) as Hlen
    by (unfold vals'; by rewrite !length_typedArraySet).
  clearbody vals'.
  exists e', (Some (createNote p sZ)), placed.
  split; [|split; [|split]].
  - replace e' with (e + (e' - e))%nat by lia.
    rewrite decodeLoop_add, (decodeLoop_ext vals' vals 0 e).
    2:{ intros i Hi. rewrite Hnth. repeat case_decide; try reflexivity; lia. }
    rewrite Hloop, Nat.add_0_l.
    assert (forall st,
      MelodyConverter.decodeLoop c vals' s (e' - s) st =
      MelodyConverter.decodeStep c st sZ lab) as Hon.
    { intros st. destruct (e' - s)%nat as [|k] eqn:Ek; [lia|].
      cbn [MelodyConverter.decodeLoop].
      rewrite Hnth, Hs. repeat case_decide; try lia.
      apply decodeLoop_zeros. intros i Hi. rewrite Hnth.
      repeat case_decide; try lia. apply Hz.
      destruct cur; lia. }
    destruct cur as [n|].
    + destruct Hcur as (-> & H1 & ->).
      destruct (decide (e = s)) as [->|Hne].
      * rewrite Hon, decodeStep_on, Hp, Hs by done. done.
      * destruct (e' - e)%nat as [|k] eqn:Ek; [lia|].
        cbn [MelodyConverter.decodeLoop].
        rewrite Hnth. repeat case_decide; try lia.
        rewrite H1 by lia. rewrite decodeStep_1.
        rewrite (decodeLoop_skip vals' (S e) k s) by
          (try lia; intros i Hi; rewrite Hnth; repeat case_decide; try lia; apply Hz; lia).
        replace (S e + k - s)%nat with (e' - s)%nat by lia.
        rewrite Hon, decodeStep_on, Hp by done. done.
    + destruct Hcur as (-> & -> & Hv0 & ->).
      assert (out = []) as -> by (cbn in Hloop; congruence).
      rewrite (decodeLoop_skip vals' 0 (e' - 0) s).
      2: lia.
      2:{ intros i Hi. rewrite Hnth. repeat case_decide; try lia.
          destruct i; [done|]. apply Hz. lia. }
      replace (0 + (e' - 0) - s)%nat with (e' - s)%nat by lia.
      rewrite Hon, decodeStep_on, Hp by done. done.
  - intros i Hi. rewrite Hnth. repeat case_decide; try lia. apply Hz. lia.
  - lia.
  - split; [lia|]. split.
    + intros Hin. rewrite Hnth. case_decide; [done | lia].
    + unfold setEnd, createNote. simpl. by rewrite He'.
Qed.

End MelodyDecode.

(** ** [argMax] undoes [oneHot] *)

Lemma argMax_from_full (l best i : Z) (k : nat) :
  argMax_from best 1 i ((fun j => if l =? j then 1 else 0) <$> seqZ i (Z.of_nat k)) = best.
Proof.
  revert i. induction k as [|k IH]; intros i; [done|].
  rewrite seqZ_cons by lia. cbn [fmap list_fmap argMax_from].
  replace (Z.pred (Z.of_nat (S k))) with (Z.of_nat k) by lia.
  replace (1 <? (if l =? i then 1 else 0)) with false by (by destruct (l =? i)).
  replace (i + 1) with (Z.succ i) by lia. apply IH.
Qed.

Lemma argMax_from_find (l best i : Z) (k : nat) :
  argMax_from best 0 i ((fun j => if l =? j then 1 else 0) <$> seqZ i (Z.of_nat k)) =
  if decide (i <= l < i + Z.of_nat k) then l else best.
Proof.
  revert i. induction k as [|k IH]; intros i.
  - cbn. case_decide; [lia | done].
  - rewrite seqZ_cons by lia. cbn [fmap list_fmap argMax_from].
    replace (Z.pred (Z.of_nat (S k))) with (Z.of_nat k) by lia.
    replace (i + 1) with (Z.succ i) by lia.
    destruct (Z.eqb_spec l i) as [->|Hne]; cbn [Z.ltb Z.compare].
    + rewrite argMax_from_full. case_decide; [done | lia].
    + rewrite IH. repeat case_decide; try done; lia.
Qed.

Lemma argMax_row_oneHot (depth l : Z) :
  l = 0 \/ 0 <= l < depth -> argMax_row (oneHotRow depth l) = l.
Proof.
  intros Hl. unfold oneHotRow.
  destruct (Z.le_gt_cases depth 0) as [Hd|Hd].
  - rewrite seqZ_nil by lia. cbn. lia.
  - rewrite seqZ_cons by lia. cbn [fmap list_fmap argMax_row].
    replace (Z.pred depth) with (Z.of_nat (Z.to_nat (depth - 1))) by lia.
    destruct (Z.eqb_spec l 0) as [->|Hne].
    + apply argMax_from_full.
    + change (Z.succ 0) with 1. rewrite argMax_from_find. case_decide; [done | lia].
Qed.

Lemma argMax_oneHot (depth : Z) (labels : list Z) :
  Forall (fun l => l = 0 \/ 0 <= l < depth) labels ->
  argMax (oneHot labels depth) = labels.
Proof.
  induction 1 as [|l labels Hl _ IH]; [done|].
  unfold argMax, oneHot in *. cbn [fmap list_fmap]. rewrite IH. f_equal.
  by apply argMax_row_oneHot.
Qed.

Lemma argMax_row_bound (row : list Z) :
  0 <= argMax_row row /\ (argMax_row row = 0 \/ argMax_row row < Z.of_nat (length row)).
Proof.
  destruct row as [|v row]; [cbn; lia|]. cbn [argMax_row length].
  assert (forall best bestv i, 0 <= best < i ->
            0 <= argMax_from best bestv i row < i + Z.of_nat (length row)) as H.
  { induction row as [|w row IH]; intros best bestv i Hb; cbn [argMax_from length].
    - lia.
    - destruct (bestv <? w).
      + specialize (IH i w (i + 1)). lia.
      + specialize (IH best bestv (i + 1)). lia. }
  specialize (H 0 v 1). lia.
Qed.

Lemma argMax_nth_nonneg (oh : Tensor2D) (j : nat) : 0 <= nth j (argMax oh) 0.
Proof.
  rewrite nth_lookup. unfold argMax. rewrite list_lookup_fmap.
  destruct (_ !! j) as [row|]; [|done].
  change (0 <= argMax_row row). pose proof (argMax_row_bound row). lia.
Qed.

(** ** Facts about the melody encoder *)

Lemma dl_oneHot_ok (indices : Tensor1D) (depth : Z) :
  2 <= depth -> dl_oneHot indices depth = Ok (oneHot indices depth).
Proof.
  intros H. unfold dl_oneHot. by destruct (Z.ltb_spec depth 2); [lia|].
Qed.

Lemma dl_oneHot_throw (indices : Tensor1D) (depth : Z) :
  depth < 2 -> dl_oneHot indices depth = Throw (DepthTooSmall depth).
Proof.
  intros H. unfold dl_oneHot. by destruct (Z.ltb_spec depth 2); [|lia].
Qed.

Lemma dl_oneHot_inv (indices : Tensor1D) (depth : Z) (oh : Tensor2D) :
  dl_oneHot indices depth = Ok oh -> 2 <= depth /\ oh = oneHot indices depth.
Proof.
  unfold dl_oneHot. destruct (Z.ltb_spec depth 2); [done|].
  intros [= <-]. by split.
Qed.

Section MelodyEncode.
Context (c : MelodyConverter.t).

Lemma placeNote_ok (mel : TensorBuffer.t) (lastEnd : Z) (n : Note) :
  lastEnd <= quantizedStartStep n -> inRange c n ->
  MelodyConverter.placeNote c (mel, lastEnd) n =
  Ok (TensorBuffer.set
        (TensorBuffer.set mel
           (pitch n - MelodyConverter.minPitch c + MelodyConverter.FIRST_PITCH)
           [Some (quantizedStartStep n)])
        MelodyConverter.NOTE_OFF [Some (quantizedEndStep n)],
      quantizedEndStep n).
Proof.
  intros Hle [Hlo Hhi]. unfold MelodyConverter.placeNote.
  destruct (Z.ltb_spec (quantizedStartStep n) lastEnd); [lia|].
  destruct (Z.ltb_spec (pitch n) (MelodyConverter.minPitch c)); [lia|].
  destruct (Z.gtb_spec (pitch n) (MelodyConverter.maxPitch c)); [lia|].
  done.
Qed.

Lemma placeNote_overlap (mel : TensorBuffer.t) (lastEnd : Z) (n : Note) :
  quantizedStartStep n < lastEnd ->
  MelodyConverter.placeNote c (mel, lastEnd) n = Throw NotMonophonic.
Proof.
  intros Hlt. unfold MelodyConverter.placeNote.
  destruct (Z.ltb_spec (quantizedStartStep n) lastEnd); [done | lia].
Qed.

Lemma placeNote_range (mel : TensorBuffer.t) (lastEnd : Z) (n : Note) :
  lastEnd <= quantizedStartStep n -> ~ inRange c n ->
  MelodyConverter.placeNote c (mel, lastEnd) n = Throw (OutOfRange (pitch n)).
Proof.
  intros Hle Hout. unfold MelodyConverter.placeNote, inRange in *.
  destruct (Z.ltb_spec (quantizedStartStep n) lastEnd); [lia|].
  destruct (Z.ltb_spec (pitch n) (MelodyConverter.minPitch c)); [done|].
  destruct (Z.gtb_spec (pitch n) (MelodyConverter.maxPitch c)); [done | lia].
Qed.

(** Whatever the state, placing one note either passes both checks or
    throws one of the two errors. *)
Lemma placeNote_cases (mel : TensorBuffer.t) (lastEnd : Z) (n : Note) :
  (lastEnd <= quantizedStartStep n /\ inRange c n /\
   exists mel', MelodyConverter.placeNote c (mel, lastEnd) n =
                Ok (mel', quantizedEndStep n)) \/
  (quantizedStartStep n < lastEnd /\
   MelodyConverter.placeNote c (mel, lastEnd) n = Throw NotMonophonic) \/
  (lastEnd <= quantizedStartStep n /\ ~ inRange c n /\
   MelodyConverter.placeNote c (mel, lastEnd) n = Throw (OutOfRange (pitch n))).
Proof.
  destruct (Z.lt_ge_cases (quantizedStartStep n) lastEnd) as [Hlt|Hge].
  - right; left. split; [done|]. by apply placeNote_overlap.
  - assert (inRange c n \/ ~ inRange c n) as [Hin|Hout] by (unfold inRange; lia).
    + left. repeat split; try done; try apply Hin.
      eexists. by apply placeNote_ok.
    + right; right. repeat split; try done. by apply placeNote_range.
Qed.

Lemma forEach_accepted (l : list Note) (mel : TensorBuffer.t) (lastEnd : Z) :
  accepted c lastEnd l ->
  exists st, forEach (MelodyConverter.placeNote c) l (mel, lastEnd) = Ok st.
Proof.
  revert mel lastEnd. induction l as [|n l IH]; intros mel lastEnd Hacc.
  - by eexists.
  - destruct Hacc as (Hle & Hin & Hacc). cbn [forEach].
    rewrite placeNote_ok by done. by apply IH.
Qed.

Lemma forEach_Ok_accepted (l : list Note) (mel : TensorBuffer.t) (lastEnd : Z) st :
  forEach (MelodyConverter.placeNote c) l (mel, lastEnd) = Ok st ->
  accepted c lastEnd l.
Proof.
  revert mel lastEnd. induction l as [|n l IH]; intros mel lastEnd H; [done|].
  cbn [forEach] in H.
  destruct (placeNote_cases mel lastEnd n)
    as [(Hle & Hin & mel' & E)|[(_ & E)|(_ & _ & E)]]; rewrite E in H; try done.
  cbn [accepted]. eauto.
Qed.

End MelodyEncode.


Lemma Forall_typedArraySet (P : Z -> Prop) (vals : list Z) (j : jsnum) (v : Z) :
  Forall P vals -> P (fround v) -> Forall P (typedArraySet vals j v).
Proof.
  intros Hall Hv. unfold typedArraySet. destruct j as [j|]; [|done].
  destruct (_ && _); [|done]. by apply Forall_insert.
Qed.

Section MelodyChecks.
Context (c : MelodyConverter.t).

Lemma toTensor_throw (ns : list Note) (e : Error) :
  forEach (MelodyConverter.placeNote c) (sortNotes ns)
          (TensorBuffer.buffer [Z.of_nat (MelodyConverter.numSteps c)], -1) = Throw e ->
  snd (MelodyConverter.toTensor c ns) = Throw e.
Proof.
  intros H. unfold MelodyConverter.toTensor, MelodyConverter.labelsOf.
  cbn [snd]. by rewrite H.
Qed.

Lemma toTensor_placed (ns : list Note) (mel : TensorBuffer.t) (lastEnd : Z) :
  forEach (MelodyConverter.placeNote c) (sortNotes ns)
          (TensorBuffer.buffer [Z.of_nat (MelodyConverter.numSteps c)], -1) = Ok (mel, lastEnd) ->
  snd (MelodyConverter.toTensor c ns) =
  dl_oneHot (TensorBuffer.values mel) (MelodyConverter.depth c).
Proof.
  intros H. unfold MelodyConverter.toTensor, MelodyConverter.labelsOf.
  cbn [snd]. by rewrite H.
Qed.

Lemma toTensor_ok (ns : list Note) (mel : TensorBuffer.t) (lastEnd : Z) :
  2 <= MelodyConverter.depth c ->
  forEach (MelodyConverter.placeNote c) (sortNotes ns)
          (TensorBuffer.buffer [Z.of_nat (MelodyConverter.numSteps c)], -1) = Ok (mel, lastEnd) ->
  snd (MelodyConverter.toTensor c ns) =
  Ok (oneHot (TensorBuffer.values mel) (MelodyConverter.depth c)).
Proof.
  intros Hd H. rewrite (toTensor_placed _ _ _ H). by apply dl_oneHot_ok.
Qed.

Lemma accepted_adjacent (l : list Note) (lastEnd : Z) (i : nat) (n1 n2 : Note) :
  accepted c lastEnd l -> l !! i = Some n1 -> l !! S i = Some n2 ->
  quantizedEndStep n1 <= quantizedStartStep n2.
Proof.
  revert lastEnd i. induction l as [|a l IH]; intros lastEnd i Hacc H1 H2; [done|].
  destruct Hacc as (_ & _ & Hacc). destruct i as [|i]; cbn in H1, H2.
  - simplify_eq. destruct l as [|b l]; [done|]. cbn in H2. simplify_eq.
    by destruct Hacc.
  - by eapply IH.
Qed.

Lemma accepted_inRange (l : list Note) (lastEnd : Z) :
  accepted c lastEnd l -> Forall (inRange c) l.
Proof.
  revert lastEnd. induction l as [|a l IH]; intros lastEnd Hacc; [done|].
  destruct Hacc as (_ & Hin & Hacc). constructor; [done | by eapply IH].
Qed.

(** A note that starts before the end of the note just before it makes
    the loop throw; the error is the monophony one when every earlier
    note has passed the range check. *)
Lemma forEach_adjacent_overlap (l : list Note) (mel : TensorBuffer.t)
    (lastEnd : Z) (i : nat) (n1 n2 : Note) :
  l !! i = Some n1 -> l !! S i = Some n2 ->
  quantizedStartStep n2 < quantizedEndStep n1 ->
  (forall k n, (k <= i)%nat -> l !! k = Some n -> inRange c n) ->
  forEach (MelodyConverter.placeNote c) l (mel, lastEnd) = Throw NotMonophonic.
Proof.
  revert mel lastEnd i.
  induction l as [|a l IH]; intros mel lastEnd i H1 H2 Hlt Hin; [done|].
  cbn [forEach].
  destruct (placeNote_cases c mel lastEnd a)
    as [(Hle & Ha & mel' & E)|[(_ & E)|(_ & Hout & E)]]; rewrite E; [|done|].
  - destruct i as [|i]; cbn in H1, H2.
    + simplify_eq. destruct l as [|b l]; [done|]. cbn in H2. simplify_eq.
      cbn [forEach]. by rewrite placeNote_overlap.
    + eapply IH; [done..|]. intros k n Hk Hn. apply (Hin (S k)); [lia | done].
  - destruct Hout. apply (Hin 0%nat); [lia | done].
Qed.


End MelodyChecks.

(** Every error of the loop is one of the two of its body, and founded. *)
Lemma forEach_throw_cases (c : MelodyConverter.t) (l : list Note)
    (mel : TensorBuffer.t) (lastEnd : Z) (e : Error) :
  forEach (MelodyConverter.placeNote c) l (mel, lastEnd) = Throw e ->
  (e = NotMonophonic /\
   ((exists a, l !! 0%nat = Some a /\ quantizedStartStep a < lastEnd) \/
    (exists i a b, l !! i = Some a /\ l !! S i = Some b /\
                   quantizedStartStep b < quantizedEndStep a))) \/
  (exists n, n ∈ l /\ ~ inRange c n /\ e = OutOfRange (pitch n)).
Proof.
  revert mel lastEnd. induction l as [|a l IH]; intros mel lastEnd H; [done|].
  cbn [forEach] in H.
  destruct (placeNote_cases c mel lastEnd a)
    as [(Hle & Ha & mel' & E)|[(Hlt & E)|(_ & Hout & E)]]; rewrite E in H.
  - destruct (IH _ _ H) as [[-> [(b & Hb & Hlt)|(i & x & y & Hx & Hy & Hlt)]]
                           |(n & Hn & Hout & ->)].
    + left. split; [done|]. right. by exists 0%nat, a, b.
    + left. split; [done|]. right. by exists (S i), x, y.
    + right. exists n. split; [by right | done].
  - injection H as <-. left. split; [done|]. left. by exists a.
  - injection H as <-. right. exists a. split; [by left | done].
Qed.

(** ** The encoder followed by the decoder *)

Lemma nonOverlapping_perm (l l' : list Note) :
  Permutation l l' -> nonOverlapping l -> nonOverlapping l'.
Proof.
  induction 1 as [|x l l' Hp IH|x y l|l l' l'' _ IH1 _ IH2]; cbn [nonOverlapping].
  - done.
  - intros [Hx Hl]. split; [by rewrite <- Hp | by apply IH].
  - intros (Hy & Hx & Hl). apply Forall_cons in Hy as [Hyx Hy].
    repeat split; try done. constructor; [|done].
    unfold disjointNotes in *. tauto.
  - auto.
Qed.

Section MelodyRoundTrip.
Context (c : MelodyConverter.t).
Hypothesis Hdepth :
  MelodyConverter.depth c =
  MelodyConverter.maxPitch c - MelodyConverter.minPitch c + 3.
(** Every label is stored exactly. *)
Hypothesis Hexact :
  MelodyConverter.maxPitch c - MelodyConverter.minPitch c + 2 <= 2 ^ 24.

Lemma forEach_placed (l : list Note) (mel : TensorBuffer.t) (lastEnd : Z)
    (placed : list Note) :
  length (TensorBuffer.shape mel) = 1%nat ->
  placedInv c (TensorBuffer.values mel) lastEnd placed ->
  Forall (labelOK c) (TensorBuffer.values mel) ->
  placeable c (Z.of_nat (length (TensorBuffer.values mel))) lastEnd l ->
  exists mel' lastEnd',
    forEach (MelodyConverter.placeNote c) l (mel, lastEnd) = Ok (mel', lastEnd') /\
    placedInv c (TensorBuffer.values mel') lastEnd' (placed ++ l) /\
    Forall (labelOK c) (TensorBuffer.values mel').
Proof.
  revert mel lastEnd placed.
  induction l as [|n l IH]; intros mel lastEnd placed Hrank Hinv Hok Hpl.
  - exists mel, lastEnd. by rewrite app_nil_r.
  - destruct Hpl as (Hle & H0 & Hlt & Hend & Hin & Hpl). cbn [forEach].
    rewrite placeNote_ok by done.
    set (mel1 := TensorBuffer.set mel _ [Some (quantizedStartStep n)]).
    set (mel2 := TensorBuffer.set mel1 _ _).
    assert (TensorBuffer.values mel2 =
            typedArraySet
              (typedArraySet (TensorBuffer.values mel) (Some (quantizedStartStep n))
                 (pitch n - MelodyConverter.minPitch c + MelodyConverter.FIRST_PITCH))
              (Some (quantizedEndStep n)) MelodyConverter.NOTE_OFF) as Hvals.
    { unfold mel2. rewrite set_rank1 by done. unfold mel1. by rewrite set_rank1. }
    assert (length (TensorBuffer.values mel2) = length (TensorBuffer.values mel))
      as Hlen by (by rewrite Hvals, !length_typedArraySet).
    destruct (IH mel2 (quantizedEndStep n) (placed ++ [n])) as (mel' & le' & E & Hinv' & Hok').
    + done.
    + rewrite Hvals. eapply placedInv_step; [exact Hinv|try done..]; [apply Hin|].
      destruct Hin as [Hlo Hhi]. unfold MelodyConverter.FIRST_PITCH. lia.
    + rewrite Hvals. destruct Hin as [Hlo Hhi].
      apply Forall_typedArraySet; [apply Forall_typedArraySet; [done|]|];
        (rewrite fround_small;
         [right|]; unfold MelodyConverter.FIRST_PITCH, MelodyConverter.NOTE_OFF; lia).
    + by rewrite Hlen.
    + exists mel', le'. by rewrite <- app_assoc in Hinv'.
Qed.

(** Encoding placeable c notes succeeds, writes only labels below [depth],
    and the labels decode to the same notes. *)
Lemma labelsOf_roundtrip (l : list Note) :
  placeable c (Z.of_nat (MelodyConverter.numSteps c)) (-1) l ->
  exists labels,
    MelodyConverter.labelsOf c l = Ok labels /\
    Forall (labelOK c) labels /\
    MelodyConverter.decodeLabels c labels = l.
Proof.
  intros Hpl. unfold MelodyConverter.labelsOf.
  set (mel := TensorBuffer.buffer [Z.of_nat (MelodyConverter.numSteps c)]).
  assert (TensorBuffer.values mel =
          replicate (MelodyConverter.numSteps c) 0) as Hvals.
  { cbn. f_equal. lia. }
  destruct (forEach_placed l mel (-1) []) as (mel' & le' & E & Hinv & Hok).
  - done.
  - rewrite Hvals. apply placedInv_init.
  - rewrite Hvals. apply Forall_replicate. by left.
  - by rewrite Hvals, length_replicate.
  - rewrite E. exists (TensorBuffer.values mel'). repeat split; [done|].
    by eapply placedInv_decode.
Qed.

Lemma sorted_placeable (steps : Z) (l : list Note) :
  StronglySorted startLe l -> nonOverlapping l ->
  Forall (fun n => 0 <= quantizedStartStep n /\
                   quantizedStartStep n < quantizedEndStep n /\
                   quantizedEndStep n <= steps /\ inRange c n) l ->
  forall lastEnd, Forall (fun n => lastEnd <= quantizedStartStep n) l ->
  placeable c steps lastEnd l.
Proof.
  induction 1 as [|a l Hs IH Hle]; intros Hno Hall lastEnd Hlast; [done|].
  destruct Hno as [Hdis Hno].
  apply Forall_cons in Hall as [(H0 & Hlt & Hend & Hin) Hall].
  apply Forall_cons in Hlast as [Hla _].
  cbn [placeable]. split_and!; try done.
  apply IH; try done.
  rewrite Forall_forall in *. intros n Hn.
  specialize (Hdis n Hn). specialize (Hle n Hn). specialize (Hall n Hn).
  unfold disjointNotes, startLe in *. lia.
Qed.

End MelodyRoundTrip.

(** ** What the melody decoder emits *)

Section MelodyWellFormed.
Context (c : MelodyConverter.t).
Hypothesis Hdepth :
  MelodyConverter.depth c =
  MelodyConverter.maxPitch c - MelodyConverter.minPitch c + 3.

Lemma lastEndOf_snoc (lo : Z) (l : list Note) (n : Note) :
  lastEndOf lo (l ++ [n]) = quantizedEndStep n.
Proof. unfold lastEndOf. by rewrite fold_left_app. Qed.

Lemma wellFormed_snoc (lo : Z) (l : list Note) (n : Note) :
  wellFormed c lo l -> lastEndOf lo l <= quantizedStartStep n ->
  quantizedStartStep n < quantizedEndStep n -> inRange c n ->
  wellFormed c lo (l ++ [n]).
Proof.
  revert lo. induction l as [|a l IH]; intros lo Hwf Hle Hlt Hin.
  - cbn in *. by split_and!.
  - destruct Hwf as (? & ? & ? & Hwf). cbn [app wellFormed].
    split_and!; try done. by apply IH.
Qed.

Lemma wellFormed_starts (lo : Z) (l : list Note) :
  wellFormed c lo l -> Forall (fun n => lo <= quantizedStartStep n) l.
Proof.
  revert lo. induction l as [|a l IH]; intros lo Hwf; [done|].
  destruct Hwf as (? & ? & ? & Hwf). constructor; [done|].
  eapply Forall_impl; [by apply IH|]. cbn. intros; lia.
Qed.

Lemma wellFormed_ends (lo : Z) (l : list Note) :
  wellFormed c lo l ->
  lo <= lastEndOf lo l /\
  Forall (fun n => quantizedEndStep n <= lastEndOf lo l) l.
Proof.
  revert lo. induction l as [|a l IH]; intros lo Hwf; [by cbn|].
  destruct Hwf as (? & ? & ? & Hwf).
  destruct (IH _ Hwf) as [Hlo Hall].
  change (lastEndOf lo (a :: l)) with (lastEndOf (quantizedEndStep a) l).
  split; [lia|]. by constructor.
Qed.

Lemma wellFormed_each (lo : Z) (l : list Note) :
  wellFormed c lo l ->
  Forall (fun n => quantizedStartStep n < quantizedEndStep n /\ inRange c n) l.
Proof.
  revert lo. induction l as [|a l IH]; intros lo Hwf; [done|].
  destruct Hwf as (? & ? & ? & Hwf). constructor; [done | by eapply IH].
Qed.

Lemma wellFormed_ordered (lo : Z) (l : list Note) (i j : nat) (a b : Note) :
  wellFormed c lo l -> (i < j)%nat -> l !! i = Some a -> l !! j = Some b ->
  quantizedEndStep a <= quantizedStartStep b.
Proof.
  revert lo i j. induction l as [|x l IH]; intros lo i j Hwf Hij Ha Hb; [done|].
  destruct Hwf as (? & ? & ? & Hwf).
  destruct j as [|j]; [lia|]. cbn in Hb. destruct i as [|i]; cbn in Ha.
  - simplify_eq. apply wellFormed_starts in Hwf.
    rewrite Forall_forall in Hwf. apply Hwf, list_elem_of_lookup. eauto.
  - eapply IH; [done| |done..]. lia.
Qed.

Lemma wellFormed_sorted (lo : Z) (l : list Note) :
  wellFormed c lo l -> StronglySorted startLe l.
Proof.
  revert lo. induction l as [|a l IH]; intros lo Hwf; [constructor|].
  destruct Hwf as (? & ? & ? & Hwf). constructor; [by eapply IH|].
  eapply Forall_impl; [by apply wellFormed_starts|].
  unfold startLe. cbn. intros; lia.
Qed.

Lemma wellFormed_accepted (lo lastEnd : Z) (l : list Note) :
  wellFormed c lo l -> lastEnd <= lo -> accepted c lastEnd l.
Proof.
  revert lo lastEnd. induction l as [|a l IH]; intros lo lastEnd Hwf Hle; [done|].
  destruct Hwf as (? & ? & ? & Hwf). cbn [accepted].
  split_and!; try done; try lia. by eapply IH.
Qed.

Lemma decodeStep_WF (s label : Z) (st : option Note * list Note) :
  decodeWF c s st -> labelOK c label ->
  decodeWF c (s + 1) (MelodyConverter.decodeStep c st s label).
Proof.
  destruct st as [cur out]. intros (Hwf & Hs & Hcur) Hl. cbn [fst snd] in *.
  assert (label = 0 \/ label = 1 \/
          (2 <= label /\ inRange c (createNote (label - 2 + MelodyConverter.minPitch c) s)))
    as [->|[->|[H2 Hin]]].
  { unfold labelOK, inRange in *. cbn. lia. }
  - rewrite decodeStep_0. unfold decodeWF. cbn [fst snd].
    split_and!; [done|lia|]. destruct cur; [split_and!; try tauto; lia | lia].
  - rewrite decodeStep_1. destruct cur as [n|]; unfold decodeWF; cbn [fst snd].
    + destruct Hcur as (? & ? & ?).
      split_and!; [|lia|rewrite lastEndOf_snoc; cbn; lia].
      apply wellFormed_snoc; [done | cbn; lia | cbn; lia | done].
    + split_and!; [done|lia|lia].
  - rewrite decodeStep_on by done. unfold decodeWF. cbn [fst snd].
    destruct cur as [n|].
    + destruct Hcur as (? & ? & ?).
      split_and!; [|lia| |cbn; lia|done].
      * apply wellFormed_snoc; [done | cbn; lia | cbn; lia | done].
      * rewrite lastEndOf_snoc. cbn. lia.
    + split_and!; try done; try lia. cbn. lia.
Qed.

Lemma decodeLoop_WF (labels : list Z) (from k : nat) (st : option Note * list Note) :
  (forall i, labelOK c (nth i labels 0)) ->
  decodeWF c (Z.of_nat from) st ->
  decodeWF c (Z.of_nat (from + k)) (MelodyConverter.decodeLoop c labels from k st).
Proof.
  intros Hl. revert from st. induction k as [|k IH]; intros from st Hst.
  - by rewrite Nat.add_0_r.
  - cbn [MelodyConverter.decodeLoop].
    replace (from + S k)%nat with (S from + k)%nat by lia. apply IH.
    replace (Z.of_nat (S from)) with (Z.of_nat from + 1) by lia.
    by apply decodeStep_WF.
Qed.

Lemma decodeLabels_WF (labels : list Z) :
  Forall (labelOK c) labels ->
  wellFormed c 0 (MelodyConverter.decodeLabels c labels) /\
  lastEndOf 0 (MelodyConverter.decodeLabels c labels) <= Z.of_nat (length labels).
Proof.
  intros Hall.
  assert (forall i, labelOK c (nth i labels 0)) as Hl.
  { intros i. rewrite nth_lookup. destruct (labels !! i) eqn:E; cbn; [|by left].
    rewrite Forall_forall in Hall. apply Hall, list_elem_of_lookup. eauto. }
  pose proof (decodeLoop_WF labels 0 (length labels) (None, []) Hl) as H.
  unfold MelodyConverter.decodeLabels.
  destruct (MelodyConverter.decodeLoop c labels 0 (length labels) (None, []))
    as [cur out].
  destruct H as (Hwf & _ & Hcur); [by cbn|]. cbn [fst snd] in *.
  destruct cur as [n|].
  - destruct Hcur as (? & ? & ?). rewrite lastEndOf_snoc. cbn.
    split; [|lia]. apply wellFormed_snoc; try done; cbn; lia.
  - split; [done | lia].
Qed.

Lemma argMax_labelOK (oh : Tensor2D) :
  Forall (fun row => Z.of_nat (length row) = MelodyConverter.depth c) oh ->
  Forall (labelOK c) (argMax oh).
Proof.
  intros H. unfold argMax. apply Forall_fmap. eapply Forall_impl; [exact H|].
  intros row Hrow. unfold compose, labelOK.
  cbn beta in Hrow. pose proof (argMax_row_bound row). lia.
Qed.

End MelodyWellFormed.

(** ** Facts about the drum roll *)

(** Distinct cells of a row-major array have distinct flat indices. *)
Lemma cell_index_inj (w s a k k' : Z) :
  0 <= k < w -> 0 <= k' < w -> s * w + k = a * w + k' -> s = a /\ k = k'.
Proof.
  intros Hk Hk' E.
  assert (s = a) as ->.
  { destruct (Z.lt_trichotomy s a) as [H|[H|H]]; [|done|]; nia. }
  lia.
Qed.

(** Closes a goal by comparing the flat indices of two cells of the roll. *)
Ltac same_cell c s a k k' :=
  destruct (cell_index_inj (width c) s a k k');
  unfold width, classCount in *; lia.

Lemma lookup_nth_lt (l : list Z) (i : nat) :
  (i < length l)%nat -> l !! i = Some (nth i l 0).
Proof.
  intros H. destruct (lookup_lt_is_Some_2 l i H) as [x Hx].
  by rewrite (nth_lookup_Some _ _ _ _ Hx).
Qed.

Lemma register_bound (bound c : nat) (classes : list (list Z)) (m : gmap Z nat) :
  (c + length classes <= bound)%nat ->
  (forall p k, m !! p = Some k -> (k < bound)%nat) ->
  forall p k, DrumsConverter.register c classes m !! p = Some k -> (k < bound)%nat.
Proof.
  revert c m. induction classes as [|cls classes IH]; intros c m Hb Hm; [done|].
  cbn [DrumsConverter.register length] in *. apply IH; [lia|].
  clear IH. revert m Hm. induction cls as [|q cls IH]; intros m Hm; [done|].
  cbn [fold_left]. apply IH. intros p k.
  destruct (decide (q = p)) as [->|Hne].
  - rewrite lookup_insert_eq. intros [= <-]. lia.
  - rewrite lookup_insert_ne by done. apply Hm.
Qed.

Lemma create_pitchToClass_bound (args : DrumsConverter.Args) (p : Z) (k : nat) :
  DrumsConverter.pitchToClass (DrumsConverter.create args) !! p = Some k ->
  (k < length (DrumsConverter.pitchClasses (DrumsConverter.create args)))%nat.
Proof.
  cbn [DrumsConverter.create DrumsConverter.pitchToClass DrumsConverter.pitchClasses].
  apply register_bound; [lia|]. intros q j. by rewrite lookup_empty.
Qed.

Lemma activeCell_registered (c : DrumsConverter.t) (notes : list Note)
    (s : Z) (k : nat) :
  activeCell c (filter (registered c) notes) s k = activeCell c notes s k.
Proof.
  unfold activeCell. induction notes as [|note notes IH]; [done|].
  rewrite filter_cons.
  destruct (decide (registered c note)) as [Hreg|Hreg]; cbn [existsb]; rewrite IH.
  - done.
  - unfold hits at 2.
    case_bool_decide as Hk; [|by rewrite andb_false_r].
    destruct Hreg. unfold registered. by rewrite Hk.
Qed.

Section DrumsEncode.
Context (c : DrumsConverter.t).
Hypothesis Hvalid : forall p k,
  DrumsConverter.pitchToClass c !! p = Some k ->
  (k < length (DrumsConverter.pitchClasses c))%nat.


Lemma set_roll (b : TensorBuffer.t) (v i j : Z) :
  rollShaped c b ->
  TensorBuffer.values (TensorBuffer.set b v [Some i; Some j]) =
  typedArraySet (TensorBuffer.values b) (Some (j + 1 * width c * i)) v.
Proof.
  intros [Hshape Hstrides].
  unfold TensorBuffer.set, TensorBuffer.locToIndex. by rewrite Hshape, Hstrides.
Qed.

Lemma set_roll_undefined (b : TensorBuffer.t) (v i : Z) :
  rollShaped c b ->
  TensorBuffer.values (TensorBuffer.set b v [Some i; None]) = TensorBuffer.values b.
Proof.
  intros [Hshape Hstrides].
  unfold TensorBuffer.set, TensorBuffer.locToIndex. by rewrite Hshape, Hstrides.
Qed.

Lemma set_length (b : TensorBuffer.t) (v : Z) (locs : list jsnum) :
  length (TensorBuffer.values (TensorBuffer.set b v locs)) =
  length (TensorBuffer.values b).
Proof. apply length_typedArraySet. Qed.

Lemma cellIndex_Z (s k : nat) :
  Z.of_nat (cellIndex c s k) = Z.of_nat s * width c + Z.of_nat k.
Proof. unfold cellIndex, width, classCount. lia. Qed.

(** A write aimed at column [-1] never lands on a class cell. *)
Lemma nth_set_last (b : TensorBuffer.t) (v i : Z) (s k : nat) :
  rollShaped c b -> (k < classCount c)%nat ->
  nth (cellIndex c s k) (TensorBuffer.values (TensorBuffer.set b v [Some i; Some (-1)])) 0 =
  nth (cellIndex c s k) (TensorBuffer.values b) 0.
Proof.
  intros Hb Hk. rewrite set_roll, nth_typedArraySet by done.
  case_decide as H; [|done]. destruct H as [H _]. rewrite cellIndex_Z in H.
  exfalso.
  same_cell c (Z.of_nat s) (i - 1) (Z.of_nat k) (width c - 1).
Qed.

Lemma nth_addNote (b : TensorBuffer.t) (note : Note) (s k : nat) :
  rollShaped c b -> (k < classCount c)%nat ->
  (cellIndex c s k < length (TensorBuffer.values b))%nat ->
  nth (cellIndex c s k) (TensorBuffer.values (DrumsConverter.addNote c b note)) 0 =
  if hits c (Z.of_nat s) k note then 1
  else nth (cellIndex c s k) (TensorBuffer.values b) 0.
Proof.
  intros Hb Hk Hlen. unfold DrumsConverter.addNote.
  rewrite nth_set_last by done.
  unfold hits, DrumsConverter.classOf.
  destruct (DrumsConverter.pitchToClass c !! pitch note) as [k'|] eqn:Ecls; cbn [fmap option_fmap option_map].
  - rewrite set_roll, nth_typedArraySet by done. rewrite cellIndex_Z.
    pose proof (Hvalid _ _ Ecls) as Hk'. fold (classCount c) in Hk'.
    assert (Z.of_nat s * width c + Z.of_nat k =
            Z.of_nat k' + 1 * width c * quantizedStartStep note <->
            quantizedStartStep note = Z.of_nat s /\ k' = k) as Hiff.
    { split.
      - intros E.
        same_cell c (Z.of_nat s) (quantizedStartStep note) (Z.of_nat k) (Z.of_nat k').
      - intros [-> ->]. lia. }
    destruct (Z.eqb_spec (quantizedStartStep note) (Z.of_nat s)) as [Es|Es];
      case_bool_decide as Ek; cbn [andb]; case_decide as H; try done;
      try (destruct H as [H _]; apply Hiff in H as [? ?]; congruence).
    destruct H. split; [|done]. apply Hiff. split; congruence.
  - rewrite set_roll_undefined by done.
    case_bool_decide; [done|]. by rewrite andb_false_r.
Qed.

Lemma nth_fold_addNote (notes : list Note) (b : TensorBuffer.t) (s k : nat) :
  rollShaped c b -> (k < classCount c)%nat ->
  (cellIndex c s k < length (TensorBuffer.values b))%nat ->
  nth (cellIndex c s k)
      (TensorBuffer.values (fold_left (DrumsConverter.addNote c) notes b)) 0 =
  if activeCell c notes (Z.of_nat s) k then 1
  else nth (cellIndex c s k) (TensorBuffer.values b) 0.
Proof.
  revert b. induction notes as [|note notes IH]; intros b Hb Hk Hlen; [done|].
  cbn [fold_left activeCell existsb]. fold (activeCell c notes (Z.of_nat s) k).
  rewrite IH; [|done|done|].
  - rewrite nth_addNote by done.
    by destruct (hits _ _ _ _), (activeCell _ _ _ _).
  - unfold DrumsConverter.addNote. by rewrite !set_length.
Qed.

Lemma fold_addNote_shape (notes : list Note) (b : TensorBuffer.t) :
  TensorBuffer.shape (fold_left (DrumsConverter.addNote c) notes b) =
  TensorBuffer.shape b /\
  length (TensorBuffer.values (fold_left (DrumsConverter.addNote c) notes b)) =
  length (TensorBuffer.values b).
Proof.
  revert b. induction notes as [|note notes IH]; intros b; [done|].
  cbn [fold_left]. destruct (IH (DrumsConverter.addNote c b note)) as [-> ->].
  unfold DrumsConverter.addNote. by rewrite !set_length.
Qed.

Lemma initRoll_spec :
  rollShaped c (DrumsConverter.initRoll c) /\
  length (TensorBuffer.values (DrumsConverter.initRoll c)) =
    Z.to_nat (1 * Z.of_nat (DrumsConverter.numSteps c) * width c) /\
  forall s k, (k < classCount c)%nat ->
    nth (cellIndex c s k) (TensorBuffer.values (DrumsConverter.initRoll c)) 0 = 0.
Proof.
  unfold DrumsConverter.initRoll.
  set (b0 := TensorBuffer.buffer _).
  assert (rollShaped c b0) as Hb0 by done.
  assert (length (TensorBuffer.values b0) =
          Z.to_nat (1 * Z.of_nat (DrumsConverter.numSteps c) * width c)) as Hlen0
    by apply length_replicate.
  assert (forall s k, (k < classCount c)%nat ->
            nth (cellIndex c s k) (TensorBuffer.values b0) 0 = 0) as Hz0.
  { intros s k _. cbn [b0 TensorBuffer.buffer TensorBuffer.values].
    rewrite nth_lookup. destruct (replicate _ _ !! _) eqn:E; [|done].
    apply lookup_replicate in E. cbn. tauto. }
  clearbody b0. revert b0 Hb0 Hlen0 Hz0.
  induction (seqZ 0 (Z.of_nat (DrumsConverter.numSteps c))) as [|i l IH];
    intros b0 Hb0 Hlen0 Hz0; cbn [fold_left]; [done|].
  apply IH; [done | by rewrite set_length |].
  intros s k Hk. rewrite nth_set_last by done. by apply Hz0.
Qed.

(** The class columns of the roll hold 1 exactly in the active cells. *)
Lemma toTensor_classColumns (notes : list Note) :
  classColumns c
    (TensorBuffer.toTensor2D
       (fold_left (DrumsConverter.addNote c) notes (DrumsConverter.initRoll c))) =
  (fun s =>
     (fun k => if activeCell c notes (Z.of_nat s) k then 1 else 0)
       <$> seq 0 (classCount c))
    <$> seq 0 (DrumsConverter.numSteps c).
Proof.
  destruct initRoll_spec as ([Hshape Hstrides] & Hlen & Hzero).
  destruct (fold_addNote_shape notes (DrumsConverter.initRoll c)) as [Hshape' Hlen'].
  unfold TensorBuffer.toTensor2D, TensorBuffer.rows, classColumns.
  rewrite Hshape', Hshape, Nat2Z.id, <- list_fmap_compose.
  apply list_fmap_ext. intros i s Hs. apply lookup_seq in Hs as [-> Hs].
  cbn [Nat.add compose]. apply list_eq. intros k.
  destruct (decide (k < classCount c)%nat) as [Hk|Hk].
  - rewrite !lookup_take_lt by (unfold width; lia).
    rewrite lookup_drop, list_lookup_fmap, lookup_seq_lt by done.
    assert (cellIndex c i k <
            length (TensorBuffer.values (DrumsConverter.initRoll c)))%nat as Hin.
    { rewrite Hlen. unfold cellIndex, width in *. nia. }
    fold (cellIndex c i k). rewrite lookup_nth_lt by (by rewrite Hlen').
    rewrite nth_fold_addNote by done. rewrite Hzero by done. done.
  - rewrite lookup_take_ge by lia.
    symmetry. apply lookup_ge_None. rewrite length_fmap, length_seq. lia.
Qed.

End DrumsEncode.

(** ** Facts about the raw drum-roll decoder *)

Section DrumRollDecode.
Context (c : DrumsConverter.t).

Lemma rowNotes_cells (s : Z) (f : nat -> bool) (m p : nat) (out : list Note) :
  (p + m <= length (DrumsConverter.pitchClasses c))%nat ->
  DrumRollConverter.rowNotes c s p
    ((fun k => if f k then 1 else 0) <$> seq p m) out =
  Ok (out ++
      flat_map (fun k => if f k then [mkNote (canonicalPitch c k) s (s + 1)] else [])
               (seq p m)).
Proof.
  revert p out. induction m as [|m IH]; intros p out Hp.
  - cbn. by rewrite app_nil_r.
  - cbn [seq fmap list_fmap flat_map DrumRollConverter.rowNotes].
    destruct (f p).
    + cbn [Z.eqb].
      destruct (lookup_lt_is_Some_2 (DrumsConverter.pitchClasses c) p) as [cls Hcls];
        [lia|].
      rewrite Hcls, IH by lia. unfold canonicalPitch.
      rewrite (nth_lookup_Some _ _ _ _ Hcls). by rewrite <- app_assoc.
    + cbn [Z.eqb]. by rewrite IH by lia.
Qed.

Lemma rollNotes_rows (g : nat -> list Z) (h : nat -> list Note)
    (n s0 : nat) (out : list Note) :
  (forall s out', DrumRollConverter.rowNotes c (Z.of_nat s) 0 (g s) out' =
                  Ok (out' ++ h s)) ->
  DrumRollConverter.rollNotes c (Z.of_nat s0) (g <$> seq s0 n) out =
  Ok (out ++ flat_map h (seq s0 n)).
Proof.
  intros Hrow. revert s0 out. induction n as [|n IH]; intros s0 out.
  - cbn. by rewrite app_nil_r.
  - cbn [seq fmap list_fmap flat_map DrumRollConverter.rollNotes].
    rewrite Hrow. replace (Z.of_nat s0 + 1) with (Z.of_nat (S s0)) by lia.
    by rewrite IH, <- app_assoc.
Qed.

Lemma toNoteSequence_classColumns (notes : list Note) :
  (forall p k, DrumsConverter.pitchToClass c !! p = Some k ->
               (k < length (DrumsConverter.pitchClasses c))%nat) ->
  DrumRollConverter.toNoteSequence c
    (classColumns c
       (TensorBuffer.toTensor2D
          (fold_left (DrumsConverter.addNote c) notes (DrumsConverter.initRoll c)))) =
  Ok (activeNotes c notes).
Proof.
  intros Hvalid. rewrite toTensor_classColumns by done.
  unfold DrumRollConverter.toNoteSequence, activeNotes.
  change 0 with (Z.of_nat 0).
  rewrite (rollNotes_rows _
    (fun s => flat_map
       (fun k => if activeCell c notes (Z.of_nat s) k
                 then [mkNote (canonicalPitch c k) (Z.of_nat s) (Z.of_nat s + 1)]
                 else [])
       (seq 0 (length (DrumsConverter.pitchClasses c))))); [done|].
  intros s out'. by apply rowNotes_cells.
Qed.

End DrumRollDecode.

(** * Properties of the melody converter *)

(** C1, as the claim states it, fails: a note of zero duration meets every
    stated condition (it overlaps nothing, its pitch is in range and both
    its steps lie in [0, 4)), yet its note-off overwrites its note-on and
    the decoded sequence does not contain it. *)
Lemma melody_roundtrip_zero_duration :
  nonOverlapping [mkNote 60 1 1] /\
  Forall (fun n => 60 <= pitch n <= 61 /\
                   0 <= quantizedStartStep n < 4 /\
                   0 <= quantizedEndStep n < 4) [mkNote 60 1 1] /\
  exists oh,
    snd (MelodyConverter.toTensor melody4 [mkNote 60 1 1]) = Ok oh /\
    MelodyConverter.toNoteSequence melody4 oh = Ok [] /\
    ~ (forall n, In n [] <-> In n [mkNote 60 1 1]).
Proof.
  split; [by cbn|]. split; [repeat constructor; cbn; lia|].
  eexists. split; [vm_compute; reflexivity|]. split; [vm_compute; reflexivity|].
  intros H. apply (H (mkNote 60 1 1)). by left.
Qed.

(** C1 (amended): for a converter whose depth [maxPitch - minPitch + 3] is
    at least 2 (below that [dl.oneHot] throws) and at most [2^24 + 1] (so
    that the buffer stores every label exactly), and for every note sequence
    whose notes do not overlap, each lasting at least one step
    ([startStep < endStep]), with pitches in [minPitch, maxPitch] and steps
    within the timeline ([0 <= startStep], [endStep <= numSteps]), encoding
    succeeds and decoding the encoded tensor returns exactly the input
    notes: the same set of (pitch, startStep, endStep) tuples, listed in
    ascending start order. *)
Theorem melody_roundtrip (args : MelodyConverter.Args) (ns : list Note) :
  2 <= MelodyConverter.depth (MelodyConverter.create args) <= 2 ^ 24 + 1 ->
  nonOverlapping ns ->
  Forall (fun n => MelodyConverter.args_minPitch args <= pitch n
                   <= MelodyConverter.args_maxPitch args) ns ->
  Forall (fun n => 0 <= quantizedStartStep n /\
                   quantizedStartStep n < quantizedEndStep n /\
                   quantizedEndStep n <= Z.of_nat (MelodyConverter.args_numSteps args)) ns ->
  exists oh decoded,
    snd (MelodyConverter.toTensor (MelodyConverter.create args) ns) = Ok oh /\
    MelodyConverter.toNoteSequence (MelodyConverter.create args) oh = Ok decoded /\
    (forall n, In n decoded <-> In n ns) /\
    decoded = sortNotes ns.
Proof.
  intros Hd Hno Hpitch Hsteps. set (c := MelodyConverter.create args) in *.
  assert (placeable c (Z.of_nat (MelodyConverter.numSteps c)) (-1) (sortNotes ns)) as Hpl.
  { apply sorted_placeable.
    - auto with notes.
    - eapply nonOverlapping_perm; [|done]. auto with notes.
    - rewrite <- sortNotes_perm. rewrite Forall_forall in *.
      intros n Hn. specialize (Hpitch n Hn). specialize (Hsteps n Hn).
      cbn beta in *. unfold inRange. cbn. lia.
    - rewrite <- sortNotes_perm. eapply Forall_impl; [exact Hsteps|].
      cbn beta. intros; lia. }
  assert (MelodyConverter.maxPitch c - MelodyConverter.minPitch c + 2 <= 2 ^ 24)
    as Hexact by (cbn in *; lia).
  destruct (labelsOf_roundtrip c eq_refl Hexact _ Hpl) as (labels & E & Hok & Hdec).
  exists (oneHot labels (MelodyConverter.depth c)), (sortNotes ns).
  split_and!.
  - unfold MelodyConverter.toTensor. cbn [snd]. rewrite E.
    apply dl_oneHot_ok, Hd.
  - unfold MelodyConverter.toNoteSequence. rewrite argMax_oneHot by done.
    by rewrite Hdec.
  - intros n. split; apply Permutation_in;
      [symmetry; apply sortNotes_perm | apply sortNotes_perm].
  - done.
Qed.

Lemma melody_roundtrip_witness :
  exists oh decoded,
    snd (MelodyConverter.toTensor
           (MelodyConverter.create (MelodyConverter.mkArgs 4 60 61 None))
           [mkNote 61 2 4; mkNote 60 0 2]) = Ok oh /\
    MelodyConverter.toNoteSequence
      (MelodyConverter.create (MelodyConverter.mkArgs 4 60 61 None)) oh =
      Ok decoded /\
    (forall n, In n decoded <-> In n [mkNote 61 2 4; mkNote 60 0 2]) /\
    decoded = sortNotes [mkNote 61 2 4; mkNote 60 0 2].
Proof.
  apply (melody_roundtrip (MelodyConverter.mkArgs 4 60 61 None)
           [mkNote 61 2 4; mkNote 60 0 2]).
  - cbn. lia.
  - cbn. split; [|split; [constructor | exact I]].
    constructor; [|constructor]. unfold disjointNotes. cbn. lia.
  - repeat constructor; cbn; lia.
  - repeat constructor; cbn; lia.
Defined.

(** C4, as the claim states it, fails: [toTensor] sorts the caller's array
    itself, so a sequence given out of order is in a different order after
    the call. *)
Lemma melody_toTensor_reorders_input :
  fst (MelodyConverter.toTensor melody4 [mkNote 61 2 4; mkNote 60 0 2]) =
    [mkNote 60 0 2; mkNote 61 2 4] /\
  fst (MelodyConverter.toTensor melody4 [mkNote 61 2 4; mkNote 60 0 2]) <>
    [mkNote 61 2 4; mkNote 60 0 2].
Proof. split; [reflexivity | discriminate]. Qed.

(** C4 (amended): for every input note sequence, when [toTensor] returns or
    throws the caller's notes collection holds the same notes, reordered by
    ascending start step with notes of equal start step kept in their
    original relative order; a collection already left by [toTensor] is not
    changed by a second call. *)
Theorem melody_toTensor_sorts_in_place (c : MelodyConverter.t) (ns : list Note) :
  Permutation ns (fst (MelodyConverter.toTensor c ns)) /\
  StronglySorted startLe (fst (MelodyConverter.toTensor c ns)) /\
  (forall s,
     filter (fun n => quantizedStartStep n = s) (fst (MelodyConverter.toTensor c ns)) =
     filter (fun n => quantizedStartStep n = s) ns) /\
  fst (MelodyConverter.toTensor c (fst (MelodyConverter.toTensor c ns))) =
  fst (MelodyConverter.toTensor c ns).
Proof.
  unfold MelodyConverter.toTensor. cbn [fst]. split_and!.
  - auto with notes.
  - auto with notes.
  - intros s. apply sortNotes_stable.
  - apply sortNotes_id. auto with notes.
Qed.

(** C5, as the claim states it, fails: the labels written for the example
    are [2,0,3,0], not [2,1,3,1] (step 1 is never written, the note-on at
    step 2 replaces the note-off written there, and the note-off at step 4
    falls outside the four steps), and the one-hot depth is 4, not 5. *)
Lemma melody_example_labels_differ :
  MelodyConverter.labelsOf melody4 (sortNotes [mkNote 60 0 2; mkNote 61 2 4]) <>
    Ok [2; 1; 3; 1] /\
  MelodyConverter.depth melody4 <> 5.
Proof. split; vm_compute; discriminate. Qed.

(** C5 (amended): with numSteps = 4, minPitch = 60, maxPitch = 61, encoding
    the notes (60,0,2) and (61,2,4) produces the labels [2,0,3,0], one-hot
    expanded to depth 4, and decoding that tensor returns exactly the same
    two notes. *)
Theorem melody_example :
  MelodyConverter.labelsOf melody4 (sortNotes [mkNote 60 0 2; mkNote 61 2 4]) =
    Ok [2; 0; 3; 0] /\
  MelodyConverter.depth melody4 = 4 /\
  snd (MelodyConverter.toTensor melody4 [mkNote 60 0 2; mkNote 61 2 4]) =
    Ok [[0; 0; 1; 0]; [1; 0; 0; 0]; [0; 0; 0; 1]; [1; 0; 0; 0]] /\
  MelodyConverter.toNoteSequence melody4
    [[0; 0; 1; 0]; [1; 0; 0; 0]; [0; 0; 0; 1]; [1; 0; 0; 0]] =
    Ok [mkNote 60 0 2; mkNote 61 2 4].
Proof. split_and!; vm_compute; reflexivity. Qed.

(** C7, as the claim states it, fails: when a note sorted before the
    overlapping one has its pitch out of range, the range check of that
    earlier note throws first and the error is the out-of-range one. *)
Lemma melody_overlap_after_bad_pitch :
  sortNotes [mkNote 200 0 4; mkNote 60 2 3] = [mkNote 200 0 4; mkNote 60 2 3] /\
  quantizedStartStep (mkNote 60 2 3) < quantizedEndStep (mkNote 200 0 4) /\
  snd (MelodyConverter.toTensor melody4 [mkNote 200 0 4; mkNote 60 2 3]) =
    Throw (OutOfRange 200) /\
  snd (MelodyConverter.toTensor melody4 [mkNote 200 0 4; mkNote 60 2 3]) <>
    Throw NotMonophonic.
Proof. split_and!; [reflexivity | cbn; lia | reflexivity | discriminate]. Qed.

(** C7 (amended): for every note sequence in which, after sorting by
    ascending start step, some note [n2] comes after a note [n1] and starts
    strictly before [n1] ends, [toTensor] throws and returns no tensor; the
    error is NotMonophonic provided every note sorted before [n2] has its
    pitch in [minPitch, maxPitch]. *)
Theorem melody_overlap_rejected (c : MelodyConverter.t) (ns : list Note)
    (i j : nat) (n1 n2 : Note) :
  sortNotes ns !! i = Some n1 -> sortNotes ns !! j = Some n2 -> (i < j)%nat ->
  quantizedStartStep n2 < quantizedEndStep n1 ->
  (exists e, snd (MelodyConverter.toTensor c ns) = Throw e) /\
  ((forall k n, (k < j)%nat -> sortNotes ns !! k = Some n ->
                MelodyConverter.minPitch c <= pitch n <= MelodyConverter.maxPitch c) ->
   snd (MelodyConverter.toTensor c ns) = Throw NotMonophonic).
Proof.
  intros H1 H2 Hij Hlt.
  destruct (lookup_lt_is_Some_2 (sortNotes ns) (S i)) as [n' Hn'].
  { apply lookup_lt_Some in H2. lia. }
  assert (quantizedStartStep n' < quantizedEndStep n1) as Hlt'.
  { pose proof (sorted_lookup_le (sortNotes ns) (S i) j n' n2
                  (sortNotes_sorted ns) ltac:(lia) Hn' H2). lia. }
  split.
  - destruct (forEach (MelodyConverter.placeNote c) (sortNotes ns)
                (TensorBuffer.buffer [Z.of_nat (MelodyConverter.numSteps c)], -1))
      as [st|e] eqn:E.
    + apply forEach_Ok_accepted in E.
      pose proof (accepted_adjacent c _ _ _ _ _ E H1 Hn'). lia.
    + exists e. by apply toTensor_throw.
  - intros Hin. apply toTensor_throw.
    apply (forEach_adjacent_overlap c _ _ _ i n1 n'); [done..|].
    intros k n Hk Hn. apply (Hin k n); [lia | done].
Qed.

Lemma melody_overlap_rejected_witness :
  (exists e, snd (MelodyConverter.toTensor melody4 [mkNote 61 1 3; mkNote 60 0 2]) =
             Throw e) /\
  ((forall k n, (k < 1)%nat ->
      sortNotes [mkNote 61 1 3; mkNote 60 0 2] !! k = Some n ->
      MelodyConverter.minPitch melody4 <= pitch n <= MelodyConverter.maxPitch melody4) ->
   snd (MelodyConverter.toTensor melody4 [mkNote 61 1 3; mkNote 60 0 2]) =
   Throw NotMonophonic).
Proof.
  apply (melody_overlap_rejected melody4 [mkNote 61 1 3; mkNote 60 0 2]
           0 1 (mkNote 60 0 2) (mkNote 61 1 3)).
  - reflexivity.
  - reflexivity.
  - lia.
  - cbn. lia.
Defined.




(** C9: for every melody tensor whose argmax labels hold a note-on (a label
    of at least 2) at some step [i] followed by no note-off and no further
    note-on, the decoder emits that note last, with its end step equal to
    the number of steps of the tensor. *)
Theorem melody_decode_open_note (c : MelodyConverter.t) (oh : Tensor2D)
    (i : nat) (label : Z) :
  (i < length oh)%nat ->
  nth i (argMax oh) 0 = label ->
  2 <= label ->
  (forall j, (i < j < length oh)%nat ->
             nth j (argMax oh) 0 <> 1 /\ nth j (argMax oh) 0 < 2) ->
  exists earlier,
    MelodyConverter.toNoteSequence c oh =
    Ok (earlier ++
        [mkNote (label - 2 + MelodyConverter.minPitch c) (Z.of_nat i)
                (Z.of_nat (length oh))]).
Proof.
  intros Hi Hlabel H2 Hrest.
  assert (length (argMax oh) = length oh) as Hlen by apply length_fmap.
  destruct (MelodyConverter.decodeLoop c (argMax oh) 0 i (None, []))
    as [cur out] eqn:E1.
  assert (MelodyConverter.decodeLoop c (argMax oh) 0 (length (argMax oh)) (None, []) =
          (Some (createNote (label - 2 + MelodyConverter.minPitch c) (Z.of_nat i)),
           match cur with Some n => out ++ [setEnd n (Z.of_nat i)] | None => out end))
    as E.
  { rewrite Hlen.
    replace (length oh) with (i + S (length oh - i - 1))%nat by lia.
    rewrite decodeLoop_add, E1, Nat.add_0_l.
    cbn [MelodyConverter.decodeLoop]. rewrite Hlabel, decodeStep_on by done.
    apply decodeLoop_zeros.
    intros j Hj. pose proof (argMax_nth_nonneg oh j).
    destruct (Hrest j); lia. }
  unfold MelodyConverter.toNoteSequence, MelodyConverter.decodeLabels.
  rewrite E, Hlen. eexists. reflexivity.
Qed.

Lemma melody_decode_open_note_witness :
  exists earlier,
    MelodyConverter.toNoteSequence melody4
      [[0; 0; 1; 0]; [1; 0; 0; 0]; [0; 0; 0; 1]; [1; 0; 0; 0]] =
    Ok (earlier ++
        [mkNote (3 - 2 + MelodyConverter.minPitch melody4) (Z.of_nat 2)
                (Z.of_nat (length [[0; 0; 1; 0]; [1; 0; 0; 0];
                                   [0; 0; 0; 1]; [1; 0; 0; 0]]))]).
Proof.
  apply (melody_decode_open_note melody4
           [[0; 0; 1; 0]; [1; 0; 0; 0]; [0; 0; 0; 1]; [1; 0; 0; 0]] 2 3).
  - cbn. lia.
  - reflexivity.
  - lia.
  - intros j Hj. cbn in Hj. assert (j = 3%nat) as -> by lia. cbn. lia.
Defined.

(** C10: for every tensor of the declared shape ([numSteps] rows of [depth]
    columns), the decoded notes lie on the timeline, each lasts at least one
    step and has its pitch in [minPitch, maxPitch]; they come in strictly
    ascending start order and none starts before the previous one ends; and
    [toTensor] accepts the decoded sequence whenever the depth of the
    converter is at least 2 (below that [dl.oneHot] throws on every
    sequence). *)
Theorem melody_decode_well_formed (args : MelodyConverter.Args) (oh : Tensor2D) :
  length oh = MelodyConverter.args_numSteps args ->
  Forall (fun row => Z.of_nat (length row) =
                     MelodyConverter.depth (MelodyConverter.create args)) oh ->
  exists notes,
    MelodyConverter.toNoteSequence (MelodyConverter.create args) oh = Ok notes /\
    (forall n, In n notes ->
       0 <= quantizedStartStep n /\
       quantizedStartStep n < quantizedEndStep n /\
       quantizedEndStep n <= Z.of_nat (MelodyConverter.args_numSteps args) /\
       MelodyConverter.args_minPitch args <= pitch n
         <= MelodyConverter.args_maxPitch args) /\
    (forall i j a b, (i < j)%nat -> notes !! i = Some a -> notes !! j = Some b ->
       quantizedStartStep a < quantizedStartStep b /\
       quantizedEndStep a <= quantizedStartStep b) /\
    (2 <= MelodyConverter.depth (MelodyConverter.create args) ->
     exists t, snd (MelodyConverter.toTensor (MelodyConverter.create args) notes) = Ok t).
Proof.
  intros Hrows Hcols. set (c := MelodyConverter.create args) in *.
  pose proof (argMax_labelOK c oh Hcols) as Hok.
  destruct (decodeLabels_WF c eq_refl _ Hok) as [Hwf Hend].
  assert (length (argMax oh) = length oh) as Hlen by apply length_fmap.
  exists (MelodyConverter.decodeLabels c (argMax oh)).
  set (notes := MelodyConverter.decodeLabels c (argMax oh)) in *.
  pose proof (wellFormed_each c _ _ Hwf) as Heach.
  pose proof (wellFormed_starts c _ _ Hwf) as Hstarts.
  destruct (wellFormed_ends c _ _ Hwf) as [_ Hends].
  rewrite Forall_forall in Heach, Hstarts, Hends.
  split_and!.
  - done.
  - intros n Hn. apply list_elem_of_In in Hn.
    destruct (Heach n Hn) as [Hlt [Hlo Hhi]].
    specialize (Hstarts n Hn). specialize (Hends n Hn). cbn beta in *.
    cbn in Hlo, Hhi. split_and!; try done; lia.
  - intros i j a b Hij Ha Hb.
    pose proof (wellFormed_ordered c _ _ _ _ _ _ Hwf Hij Ha Hb) as Hab.
    destruct (Heach a) as [Hlt _]; [apply list_elem_of_lookup; eauto|]. lia.
  - intros Hd.
    destruct (forEach_accepted c notes
                (TensorBuffer.buffer [Z.of_nat (MelodyConverter.numSteps c)]) (-1))
      as [[mel lastEnd] E].
    { eapply wellFormed_accepted; [exact Hwf | lia]. }
    eexists. apply toTensor_ok with (lastEnd := lastEnd); [exact Hd|].
    rewrite sortNotes_id; [exact E|]. by eapply wellFormed_sorted.
Qed.

Lemma melody_decode_well_formed_witness :
  exists notes,
    MelodyConverter.toNoteSequence
      (MelodyConverter.create (MelodyConverter.mkArgs 4 60 61 None))
      [[0; 0; 1; 0]; [0; 1; 0; 0]; [0; 0; 0; 1]; [1; 0; 0; 0]] = Ok notes /\
    (forall n, In n notes ->
       0 <= quantizedStartStep n /\
       quantizedStartStep n < quantizedEndStep n /\
       quantizedEndStep n <= 4 /\
       60 <= pitch n <= 61) /\
    (forall i j a b, (i < j)%nat -> notes !! i = Some a -> notes !! j = Some b ->
       quantizedStartStep a < quantizedStartStep b /\
       quantizedEndStep a <= quantizedStartStep b) /\
    exists t, snd (MelodyConverter.toTensor
                     (MelodyConverter.create (MelodyConverter.mkArgs 4 60 61 None))
                     notes) = Ok t.
Proof.
  destruct (melody_decode_well_formed (MelodyConverter.mkArgs 4 60 61 None)
              [[0; 0; 1; 0]; [0; 1; 0; 0]; [0; 0; 0; 1]; [1; 0; 0; 0]])
    as (notes & Hdec & Heach & Hord & Henc).
  - reflexivity.
  - repeat constructor.
  - exists notes. split_and!; [exact Hdec | exact Heach | exact Hord |].
    apply Henc. cbn. lia.
Defined.

(** * Properties of the drum converters *)

(** C2, as the claim states it, fails: the raw decoder reads every column
    of the tensor it is given, the last one included, and on the roll
    [[0,0,1],[0,1,0]] the 1 in the last column of the first row sends it to
    a class that does not exist. *)
Lemma drum_roll_decode_reads_last_column :
  DrumRollConverter.toNoteSequence drums2 [[0; 0; 1]; [0; 1; 0]] = Throw TypeError /\
  DrumRollConverter.toNoteSequence drums2 [[0; 0; 1]; [0; 1; 0]] <>
    Ok [mkNote 38 1 2].
Proof. split; [reflexivity | discriminate]. Qed.

(** C2 (amended): the raw decoder does not skip a last column; it expects
    the roll without it.  For every note sequence, decoding the class
    columns of the encoded roll returns exactly one note per active cell
    (a step and class hit by some input note), step by step and class by
    class, each one step long and with the first pitch of its class.  For
    the table [[36],[38]], numSteps = 2 and the note (38,1,2), the class
    columns are [[0,0],[0,1]] and decoding them returns exactly that
    note. *)
Theorem drum_roll_class_columns_roundtrip (args : DrumsConverter.Args)
    (notes : list Note) :
  (exists roll,
     DrumsConverter.toTensor (DrumsConverter.create args) notes = Ok roll /\
     DrumRollConverter.toNoteSequence (DrumsConverter.create args)
       (classColumns (DrumsConverter.create args) roll) =
     Ok (activeNotes (DrumsConverter.create args) notes)) /\
  Forall (fun n => quantizedEndStep n = quantizedStartStep n + 1)
         (activeNotes (DrumsConverter.create args) notes) /\
  (exists roll,
     DrumsConverter.toTensor drums2 [mkNote 38 1 2] = Ok roll /\
     classColumns drums2 roll = [[0; 0]; [0; 1]] /\
     DrumRollConverter.toNoteSequence drums2 [[0; 0]; [0; 1]] = Ok [mkNote 38 1 2]).
Proof.
  split_and!.
  - eexists. split; [reflexivity|].
    apply toNoteSequence_classColumns. apply create_pitchToClass_bound.
  - unfold activeNotes. rewrite Forall_forall. intros n Hn.
    apply list_elem_of_In, in_flat_map in Hn as (s & _ & Hn).
    apply in_flat_map in Hn as (k & _ & Hn).
    destruct (activeCell _ _ _ _); [|done].
    destruct Hn as [<-|[]]. done.
  - eexists. split_and!; vm_compute; reflexivity.
Qed.

(** C3, as the claim states it, fails: [DrumsConverter.toTensor] has no
    check for unregistered pitches; for a note of pitch 40, which the table
    [[36],[38]] does not register, it returns a tensor. *)
Lemma drums_unregistered_pitch_not_rejected :
  DrumsConverter.pitchToClass drums2 !! 40 = None /\
  exists roll,
    DrumsConverter.toTensor drums2 [mkNote 40 1 2] = Ok roll /\
    classColumns drums2 roll = [[0; 0]; [0; 0]].
Proof.
  split; [vm_compute; reflexivity|].
  eexists. split; vm_compute; reflexivity.
Qed.

(** C3 (amended): for every note sequence, with or without unregistered
    pitches, [DrumsConverter.toTensor] returns a tensor and throws nothing;
    a note whose pitch is registered in no class sets no class cell: the
    class columns are those of the same sequence without such notes. *)
Theorem drums_toTensor_ignores_unregistered (args : DrumsConverter.Args)
    (notes : list Note) :
  exists roll roll',
    DrumsConverter.toTensor (DrumsConverter.create args) notes = Ok roll /\
    DrumsConverter.toTensor (DrumsConverter.create args)
      (filter (registered (DrumsConverter.create args)) notes) = Ok roll' /\
    classColumns (DrumsConverter.create args) roll =
    classColumns (DrumsConverter.create args) roll'.
Proof.
  eexists _, _. split; [reflexivity|]. split; [reflexivity|].
  rewrite !toTensor_classColumns by apply create_pitchToClass_bound.
  apply list_fmap_ext. intros _ s _. apply list_fmap_ext. intros _ k _.
  by rewrite activeCell_registered.
Qed.

(** C6, evaluated on the example of the specification: table [[36],[38]],
    numSteps = 2 and the single note (38,1,2).  The writes aimed at column
    [-1] of row [i] land on the flat index [i * 3 - 1], the last column of
    row [i - 1]; row 0 ends with all three columns at 0. *)
Theorem drums_last_column_example :
  DrumsConverter.toTensor drums2 [mkNote 38 1 2] = Ok [[0; 0; 0]; [0; 1; 0]].
Proof. vm_compute. reflexivity. Qed.

(** * Further properties of the melody converter *)

Lemma forEach_app {S A : Type} (body : S -> A -> result S) (l1 l2 : list A)
    (s s1 : S) :
  forEach body l1 s = Ok s1 -> forEach body (l1 ++ l2) s = forEach body l2 s1.
Proof.
  revert s. induction l1 as [|x l1 IH]; intros s H; cbn [forEach app] in *.
  - by injection H as ->.
  - destruct (body s x); [by apply IH | done].
Qed.

Lemma wellFormed_nonOverlapping (c : MelodyConverter.t) (lo : Z) (l : list Note) :
  wellFormed c lo l -> nonOverlapping l.
Proof.
  revert lo. induction l as [|a l IH]; intros lo Hwf; [done|].
  destruct Hwf as (? & ? & ? & Hwf). split; [|by eapply IH].
  eapply Forall_impl; [by apply (wellFormed_starts c)|].
  unfold disjointNotes. cbn. intros; lia.
Qed.

Lemma accepted_wellFormed (c : MelodyConverter.t) (lastEnd : Z) (l : list Note) :
  accepted c lastEnd l ->
  Forall (fun n => quantizedStartStep n < quantizedEndStep n) l ->
  wellFormed c lastEnd l.
Proof.
  revert lastEnd. induction l as [|a l IH]; intros lastEnd Hacc Hpos; [done|].
  destruct Hacc as (? & ? & Hacc). apply Forall_cons in Hpos as [? Hpos].
  cbn [wellFormed]. split_and!; try done. by apply IH.
Qed.

Lemma sorted_accepted (c : MelodyConverter.t) (l : list Note) :
  StronglySorted startLe l -> nonOverlapping l ->
  Forall (fun n => quantizedStartStep n < quantizedEndStep n /\ inRange c n) l ->
  forall lastEnd, Forall (fun n => lastEnd <= quantizedStartStep n) l ->
  accepted c lastEnd l.
Proof.
  induction 1 as [|a l Hs IH Hle]; intros Hno Hall lastEnd Hlast; [done|].
  destruct Hno as [Hdis Hno].
  apply Forall_cons in Hall as [(Hlt & Hin) Hall].
  apply Forall_cons in Hlast as [Hla _].
  cbn [accepted]. split_and!; try done.
  apply IH; try done.
  rewrite Forall_forall in *. intros n Hn.
  specialize (Hdis n Hn). specialize (Hle n Hn). specialize (Hall n Hn).
  unfold disjointNotes, startLe in *. lia.
Qed.

(** X1: for a converter of depth at least 2 (below that [dl.oneHot] throws
    on every sequence) and notes of positive duration that start at step -1
    or later, the encoder accepts the sequence exactly when no two notes
    overlap and every pitch is in range. *)
Theorem melody_toTensor_accepts_iff (c : MelodyConverter.t) (ns : list Note) :
  2 <= MelodyConverter.depth c ->
  Forall (fun n => -1 <= quantizedStartStep n /\
                   quantizedStartStep n < quantizedEndStep n) ns ->
  ((exists oh, snd (MelodyConverter.toTensor c ns) = Ok oh) <->
   nonOverlapping ns /\
   Forall (fun n => MelodyConverter.minPitch c <= pitch n
                    <= MelodyConverter.maxPitch c) ns).
Proof.
  intros Hd Hns. split.
  - intros [oh Hoh].
    destruct (forEach (MelodyConverter.placeNote c) (sortNotes ns)
                (TensorBuffer.buffer [Z.of_nat (MelodyConverter.numSteps c)], -1))
      as [[mel lastEnd]|e] eqn:E.
    2:{ apply toTensor_throw in E. congruence. }
    apply forEach_Ok_accepted in E.
    assert (wellFormed c (-1) (sortNotes ns)) as Hwf.
    { apply accepted_wellFormed; [done|]. rewrite <- sortNotes_perm.
      eapply Forall_impl; [exact Hns|]. cbn. intros; lia. }
    split.
    + eapply nonOverlapping_perm; [symmetry; apply sortNotes_perm|].
      by eapply wellFormed_nonOverlapping.
    + rewrite (sortNotes_perm ns). eapply Forall_impl; [by eapply accepted_inRange|].
      done.
  - intros [Hno Hrange].
    destruct (forEach_accepted c (sortNotes ns)
                (TensorBuffer.buffer [Z.of_nat (MelodyConverter.numSteps c)]) (-1))
      as [[mel lastEnd] E].
    + apply sorted_accepted.
      * auto with notes.
      * eapply nonOverlapping_perm; [|done]. auto with notes.
      * rewrite <- sortNotes_perm. rewrite Forall_forall in *.
        intros n Hn. specialize (Hns n Hn). specialize (Hrange n Hn).
        cbn beta in *. unfold inRange. lia.
      * rewrite <- sortNotes_perm. eapply Forall_impl; [exact Hns|].
        cbn. intros; lia.
    + eexists. by eapply toTensor_ok.
Qed.

Lemma melody_toTensor_accepts_iff_witness :
  (exists oh, snd (MelodyConverter.toTensor melody4 [mkNote 61 2 4; mkNote 60 0 2]) =
              Ok oh) <->
  nonOverlapping [mkNote 61 2 4; mkNote 60 0 2] /\
  Forall (fun n => MelodyConverter.minPitch melody4 <= pitch n
                   <= MelodyConverter.maxPitch melody4)
         [mkNote 61 2 4; mkNote 60 0 2].
Proof.
  apply (melody_toTensor_accepts_iff melody4 [mkNote 61 2 4; mkNote 60 0 2]).
  - cbn. lia.
  - repeat constructor; cbn; lia.
Defined.

(** X2: whenever the encoder throws, the error is founded.  NotMonophonic
    means that, in sorted order, some note starts before the note just
    before it ends (or the first note starts before step -1); OutOfRange
    carries the pitch of an input note that lies outside
    [minPitch, maxPitch]; the only other error is the one of [dl.oneHot],
    thrown when the depth of the converter is below 2.  For a converter of
    depth at least 2 the first two are therefore the only errors. *)
Theorem melody_toTensor_errors_founded (c : MelodyConverter.t) (ns : list Note)
    (e : Error) :
  snd (MelodyConverter.toTensor c ns) = Throw e ->
  (e = NotMonophonic /\
   ((exists a, sortNotes ns !! 0%nat = Some a /\ quantizedStartStep a < -1) \/
    (exists i a b, sortNotes ns !! i = Some a /\ sortNotes ns !! S i = Some b /\
                   quantizedStartStep b < quantizedEndStep a))) \/
  (exists n, In n ns /\
             (pitch n < MelodyConverter.minPitch c \/
              MelodyConverter.maxPitch c < pitch n) /\
             e = OutOfRange (pitch n)) \/
  (e = DepthTooSmall (MelodyConverter.depth c) /\ MelodyConverter.depth c < 2).
Proof.
  intros H.
  destruct (forEach (MelodyConverter.placeNote c) (sortNotes ns)
              (TensorBuffer.buffer [Z.of_nat (MelodyConverter.numSteps c)], -1))
    as [[mel lastEnd]|e'] eqn:E.
  { apply toTensor_placed in E. rewrite E in H.
    destruct (Z.lt_ge_cases (MelodyConverter.depth c) 2) as [Hd|Hd].
    - rewrite dl_oneHot_throw in H by done. injection H as <-. right; right. done.
    - by rewrite dl_oneHot_ok in H. }
  pose proof (toTensor_throw c ns e' E) as H'.
  assert (e' = e) as -> by congruence.
  destruct (forEach_throw_cases _ _ _ _ _ E) as [Hmono|(n & Hn & Hout & ->)].
  - by left.
  - right; left. exists n. split_and!; [|unfold inRange in Hout; lia|done].
    apply list_elem_of_In. by rewrite (sortNotes_perm ns).
Qed.

Lemma melody_toTensor_errors_founded_witness :
  (NotMonophonic = NotMonophonic /\
   ((exists a, sortNotes [mkNote 61 2 3; mkNote 60 0 4] !! 0%nat = Some a /\
               quantizedStartStep a < -1) \/
    (exists i a b, sortNotes [mkNote 61 2 3; mkNote 60 0 4] !! i = Some a /\
                   sortNotes [mkNote 61 2 3; mkNote 60 0 4] !! S i = Some b /\
                   quantizedStartStep b < quantizedEndStep a))) \/
  (exists n, In n [mkNote 61 2 3; mkNote 60 0 4] /\
             (pitch n < MelodyConverter.minPitch melody4 \/
              MelodyConverter.maxPitch melody4 < pitch n) /\
             NotMonophonic = OutOfRange (pitch n)) \/
  (NotMonophonic = DepthTooSmall (MelodyConverter.depth melody4) /\
   MelodyConverter.depth melody4 < 2).
Proof.
  apply (melody_toTensor_errors_founded melody4 [mkNote 61 2 3; mkNote 60 0 4]).
  reflexivity.
Defined.

Section MelodyLabels.
Context (c : MelodyConverter.t).
Hypothesis Hdepth :
  MelodyConverter.depth c =
  MelodyConverter.maxPitch c - MelodyConverter.minPitch c + 3.
Hypothesis Hexact :
  MelodyConverter.maxPitch c - MelodyConverter.minPitch c + 2 <= 2 ^ 24.

(** The loop keeps the length of the buffer and writes only labels below
    [depth]. *)
Lemma forEach_labels (l : list Note) (mel mel' : TensorBuffer.t)
    (lastEnd lastEnd' : Z) :
  length (TensorBuffer.shape mel) = 1%nat ->
  Forall (labelOK c) (TensorBuffer.values mel) ->
  forEach (MelodyConverter.placeNote c) l (mel, lastEnd) = Ok (mel', lastEnd') ->
  length (TensorBuffer.values mel') = length (TensorBuffer.values mel) /\
  Forall (labelOK c) (TensorBuffer.values mel').
Proof.
  revert mel lastEnd. induction l as [|n l IH]; intros mel lastEnd Hrank Hok H.
  - cbn in H. by injection H as <- <-.
  - cbn [forEach] in H.
    destruct (placeNote_cases c mel lastEnd n)
      as [(Hle & Hin & _)|[(_ & E)|(_ & _ & E)]]; [|by rewrite E in H..].
    rewrite placeNote_ok in H by done.
    apply IH in H as [Hlen Hok'].
    + split; [|done]. rewrite Hlen. unfold TensorBuffer.set. cbn.
      by rewrite !length_typedArraySet.
    + done.
    + rewrite set_rank1, set_rank1 by done. destruct Hin as [Hlo Hhi].
      apply Forall_typedArraySet; [apply Forall_typedArraySet; [done|]|];
        (rewrite fround_small;
         [right|]; unfold MelodyConverter.FIRST_PITCH, MelodyConverter.NOTE_OFF; lia).
Qed.

Lemma wellFormed_placeable (steps lo lastEnd : Z) (l : list Note) :
  wellFormed c lo l -> 0 <= lo -> lastEnd <= lo -> lastEndOf lo l <= steps ->
  placeable c steps lastEnd l.
Proof.
  revert lo lastEnd. induction l as [|a l IH]; intros lo lastEnd Hwf H0 Hle Hend; [done|].
  pose proof (wellFormed_ends c _ _ Hwf) as [_ Hends].
  apply Forall_cons in Hends as [Ha _].
  destruct Hwf as (? & ? & ? & Hwf). cbn [placeable].
  split_and!; try done; try lia.
  apply (IH (quantizedEndStep a)); try done; lia.
Qed.

End MelodyLabels.

(** X3: when the depth [maxPitch - minPitch + 3] is at most [2^24 + 1] (so
    that the buffer stores every label exactly) and the encoder succeeds,
    the tensor has [numSteps] rows of [depth] columns, and every row is
    one-hot: a single 1 in the column of a label below [depth], and 0
    elsewhere. *)
Theorem melody_toTensor_one_hot (args : MelodyConverter.Args) (ns : list Note)
    (oh : Tensor2D) :
  MelodyConverter.depth (MelodyConverter.create args) <= 2 ^ 24 + 1 ->
  snd (MelodyConverter.toTensor (MelodyConverter.create args) ns) = Ok oh ->
  length oh = MelodyConverter.args_numSteps args /\
  Forall (fun row =>
            length row = Z.to_nat (MelodyConverter.depth (MelodyConverter.create args)) /\
            exists label,
              0 <= label < MelodyConverter.depth (MelodyConverter.create args) /\
              row = oneHotRow (MelodyConverter.depth (MelodyConverter.create args)) label)
         oh.
Proof.
  intros Hmax H. set (c := MelodyConverter.create args) in *.
  destruct (forEach (MelodyConverter.placeNote c) (sortNotes ns)
              (TensorBuffer.buffer [Z.of_nat (MelodyConverter.numSteps c)], -1))
    as [[mel lastEnd]|e] eqn:E.
  2:{ apply toTensor_throw in E. congruence. }
  pose proof (toTensor_placed c ns _ _ E) as H'.
  rewrite H' in H. apply dl_oneHot_inv in H as [Hd ->].
  assert (MelodyConverter.maxPitch c - MelodyConverter.minPitch c + 2 <= 2 ^ 24)
    as Hexact by (cbn in *; lia).
  apply (forEach_labels c eq_refl Hexact) in E as [Hlen Hok]; [|done|].
  2:{ apply Forall_replicate. by left. }
  split.
  - unfold oneHot. rewrite length_fmap, Hlen. cbn. rewrite length_replicate. lia.
  - unfold oneHot. apply Forall_fmap. eapply Forall_impl; [exact Hok|].
    intros label Hl. unfold compose. split.
    + by rewrite length_fmap, length_seqZ.
    + exists label. split; [|done]. unfold labelOK in Hl. cbn in *. lia.
Qed.

Lemma melody_toTensor_one_hot_witness :
  length [[0; 0; 1; 0]; [1; 0; 0; 0]; [0; 0; 0; 1]; [1; 0; 0; 0]] = 4%nat /\
  Forall (fun row =>
            length row = Z.to_nat (MelodyConverter.depth melody4) /\
            exists label,
              0 <= label < MelodyConverter.depth melody4 /\
              row = oneHotRow (MelodyConverter.depth melody4) label)
         [[0; 0; 1; 0]; [1; 0; 0; 0]; [0; 0; 0; 1]; [1; 0; 0; 0]].
Proof.
  apply (melody_toTensor_one_hot (MelodyConverter.mkArgs 4 60 61 None)
           [mkNote 60 0 2; mkNote 61 2 4]).
  - cbn. lia.
  - reflexivity.
Defined.

(** X6: for a converter whose depth is at least 2 and at most [2^24 + 1]
    and every tensor of the declared shape, the decoded notes are already in
    the order the encoder sorts by, the encoder accepts them, and decoding
    the re-encoded tensor gives the same notes again. *)
Theorem melody_decode_encode_decode (args : MelodyConverter.Args) (oh : Tensor2D) :
  2 <= MelodyConverter.depth (MelodyConverter.create args) <= 2 ^ 24 + 1 ->
  length oh = MelodyConverter.args_numSteps args ->
  Forall (fun row => Z.of_nat (length row) =
                     MelodyConverter.depth (MelodyConverter.create args)) oh ->
  exists notes oh',
    MelodyConverter.toNoteSequence (MelodyConverter.create args) oh = Ok notes /\
    MelodyConverter.toTensor (MelodyConverter.create args) notes = (notes, Ok oh') /\
    MelodyConverter.toNoteSequence (MelodyConverter.create args) oh' = Ok notes.
Proof.
  intros Hd Hrows Hcols. set (c := MelodyConverter.create args) in *.
  pose proof (argMax_labelOK c oh Hcols) as Hok.
  destruct (decodeLabels_WF c eq_refl _ Hok) as [Hwf Hend].
  assert (length (argMax oh) = length oh) as Hlen by apply length_fmap.
  set (notes := MelodyConverter.decodeLabels c (argMax oh)) in *.
  assert (placeable c (Z.of_nat (MelodyConverter.numSteps c)) (-1) notes) as Hpl.
  { apply (wellFormed_placeable c _ 0); [done|lia|lia|]. cbn. lia. }
  assert (MelodyConverter.maxPitch c - MelodyConverter.minPitch c + 2 <= 2 ^ 24)
    as Hexact by (cbn in *; lia).
  destruct (labelsOf_roundtrip c eq_refl Hexact _ Hpl) as (labels & E & Hok' & Hdec).
  exists notes, (oneHot labels (MelodyConverter.depth c)). split_and!.
  - done.
  - unfold MelodyConverter.toTensor.
    rewrite (sortNotes_id notes) by (by eapply wellFormed_sorted).
    rewrite E. f_equal. apply dl_oneHot_ok, Hd.
  - unfold MelodyConverter.toNoteSequence. rewrite argMax_oneHot by done.
    by rewrite Hdec.
Qed.

Lemma melody_decode_encode_decode_witness :
  exists notes oh',
    MelodyConverter.toNoteSequence
      (MelodyConverter.create (MelodyConverter.mkArgs 4 60 61 None))
      [[0; 1; 0; 0]; [0; 0; 1; 0]; [0; 0; 0; 1]; [0; 1; 0; 0]] = Ok notes /\
    MelodyConverter.toTensor
      (MelodyConverter.create (MelodyConverter.mkArgs 4 60 61 None)) notes =
      (notes, Ok oh') /\
    MelodyConverter.toNoteSequence
      (MelodyConverter.create (MelodyConverter.mkArgs 4 60 61 None)) oh' = Ok notes.
Proof.
  apply (melody_decode_encode_decode (MelodyConverter.mkArgs 4 60 61 None)
           [[0; 1; 0; 0]; [0; 0; 1; 0]; [0; 0; 0; 1]; [0; 1; 0; 0]]).
  - cbn. lia.
  - reflexivity.
  - repeat constructor.
Defined.

Lemma typedArraySet_ge (vals : list Z) (i v : Z) :
  Z.of_nat (length vals) <= i -> typedArraySet vals (Some i) v = vals.
Proof.
  intros H. unfold typedArraySet.
  destruct (Z.ltb_spec i (Z.of_nat (length vals))); [lia|].
  by rewrite andb_false_r.
Qed.

Lemma set_rank1_ge (b : TensorBuffer.t) (v i : Z) :
  length (TensorBuffer.shape b) = 1%nat ->
  Z.of_nat (length (TensorBuffer.values b)) <= i ->
  TensorBuffer.set b v [Some i] =
  TensorBuffer.mk (TensorBuffer.shape b) (TensorBuffer.strides b)
    (TensorBuffer.values b).
Proof.
  intros Hrank Hi. unfold TensorBuffer.set, TensorBuffer.locToIndex.
  rewrite Hrank. cbn [hd]. by rewrite typedArraySet_ge.
Qed.

Lemma clipEnd_id (steps : Z) (n : Note) :
  quantizedEndStep n <= steps -> clipEnd steps n = n.
Proof.
  intros H. unfold clipEnd, setEnd. destruct n as [p s e]. cbn in *.
  f_equal. lia.
Qed.

Lemma sorted_startsOnTimeline (c : MelodyConverter.t) (steps : Z) (l : list Note) :
  StronglySorted startLe l -> nonOverlapping l ->
  Forall (fun n => 0 <= quantizedStartStep n /\
                   quantizedStartStep n < quantizedEndStep n /\
                   quantizedStartStep n < steps /\ inRange c n) l ->
  forall lastEnd, Forall (fun n => lastEnd <= quantizedStartStep n) l ->
  startsOnTimeline c steps lastEnd l.
Proof.
  induction 1 as [|a l Hs IH Hle]; intros Hno Hall lastEnd Hlast; [done|].
  destruct Hno as [Hdis Hno].
  apply Forall_cons in Hall as [(H0 & Hlt & Hend & Hin) Hall].
  apply Forall_cons in Hlast as [Hla _].
  cbn [startsOnTimeline]. split_and!; try done.
  apply IH; try done.
  rewrite Forall_forall in *. intros n Hn.
  specialize (Hdis n Hn). specialize (Hle n Hn). specialize (Hall n Hn).
  unfold disjointNotes, startLe in *. lia.
Qed.

(** Cutting the ends at the end of the timeline changes nothing in what the
    loop writes: a note-off past the last step is not written either way. *)
Lemma forEach_clipEnd (c : MelodyConverter.t) (l : list Note)
    (mel : TensorBuffer.t) (lastEnd : Z) :
  length (TensorBuffer.shape mel) = 1%nat ->
  startsOnTimeline c (Z.of_nat (length (TensorBuffer.values mel))) lastEnd l ->
  placeable c (Z.of_nat (length (TensorBuffer.values mel))) lastEnd
    (clipEnd (Z.of_nat (length (TensorBuffer.values mel))) <$> l) /\
  exists mel' e1 e2,
    forEach (MelodyConverter.placeNote c) l (mel, lastEnd) = Ok (mel', e1) /\
    forEach (MelodyConverter.placeNote c)
      (clipEnd (Z.of_nat (length (TensorBuffer.values mel))) <$> l) (mel, lastEnd) =
    Ok (mel', e2).
Proof.
  revert mel lastEnd. induction l as [|a l IH]; intros mel lastEnd Hrank Hl.
  - split; [done|]. by exists mel, lastEnd, lastEnd.
  - destruct Hl as (Hle & H0 & Hlt & HN & Hin & Hl).
    set (N := Z.of_nat (length (TensorBuffer.values mel))) in *.
    destruct (Z.le_gt_cases (quantizedEndStep a) N) as [Hend|Hend].
    + rewrite fmap_cons, clipEnd_id by done. cbn [forEach placeable].
      rewrite placeNote_ok by done.
      set (mel1 := TensorBuffer.set (TensorBuffer.set mel _ _) _ _).
      assert (length (TensorBuffer.values mel1) = length (TensorBuffer.values mel))
        as Hlen by (unfold mel1, TensorBuffer.set; cbn; by rewrite !length_typedArraySet).
      destruct (IH mel1 (quantizedEndStep a)) as [Hpl Hex]; [done|by rewrite Hlen|].
      rewrite Hlen in Hpl, Hex. fold N in Hpl, Hex. by split_and!.
    + assert (l = []) as ->.
      { destruct l as [|b l]; [done|]. destruct Hl as (? & ? & ? & ? & _). lia. }
      assert (inRange c (clipEnd N a)) as Hin' by apply Hin.
      cbn [fmap list_fmap forEach placeable].
      rewrite !placeNote_ok by done.
      split.
      * unfold clipEnd. cbn. split_and!; try done; lia.
      * eexists _, (quantizedEndStep a), N. split; [reflexivity|].
        cbn [clipEnd setEnd quantizedEndStep pitch quantizedStartStep].
        do 2 f_equal; [|lia].
        set (b := TensorBuffer.set mel _ [Some (quantizedStartStep a)]).
        assert (Z.of_nat (length (TensorBuffer.values b)) = N) as Hb.
        { unfold b. by rewrite set_rank1, length_typedArraySet. }
        rewrite (set_rank1_ge b _ (quantizedEndStep a)) by (done || lia).
        rewrite (set_rank1_ge b _ (Z.min (quantizedEndStep a) N)) by (done || lia).
        done.
Qed.

(** X4: notes may run past the end of the timeline.  For a converter whose
    depth is at least 2 and at most [2^24 + 1], and for every sequence of
    non-overlapping notes with pitches in range that start on the timeline
    ([0 <= startStep < numSteps], [startStep < endStep]), encoding succeeds
    and decoding returns the notes in ascending start order with every end
    step cut at [numSteps]. *)
Theorem melody_roundtrip_clips_end (args : MelodyConverter.Args) (ns : list Note) :
  2 <= MelodyConverter.depth (MelodyConverter.create args) <= 2 ^ 24 + 1 ->
  nonOverlapping ns ->
  Forall (fun n => MelodyConverter.args_minPitch args <= pitch n
                   <= MelodyConverter.args_maxPitch args) ns ->
  Forall (fun n => 0 <= quantizedStartStep n /\
                   quantizedStartStep n < quantizedEndStep n /\
                   quantizedStartStep n < Z.of_nat (MelodyConverter.args_numSteps args))
         ns ->
  exists oh,
    snd (MelodyConverter.toTensor (MelodyConverter.create args) ns) = Ok oh /\
    MelodyConverter.toNoteSequence (MelodyConverter.create args) oh =
    Ok (clipEnd (Z.of_nat (MelodyConverter.args_numSteps args)) <$> sortNotes ns).
Proof.
  intros Hd Hno Hpitch Hsteps. set (c := MelodyConverter.create args) in *.
  assert (MelodyConverter.maxPitch c - MelodyConverter.minPitch c + 2 <= 2 ^ 24)
    as Hexact by (cbn in *; lia).
  set (mel := TensorBuffer.buffer [Z.of_nat (MelodyConverter.numSteps c)]).
  assert (length (TensorBuffer.values mel) = MelodyConverter.args_numSteps args)
    as Hlen.
  { cbn. rewrite length_replicate. lia. }
  destruct (forEach_clipEnd c (sortNotes ns) mel (-1)) as (Hpl & mel' & e1 & e2 & E1 & E2).
  { done. }
  { rewrite Hlen. apply sorted_startsOnTimeline.
    - auto with notes.
    - eapply nonOverlapping_perm; [|done]. auto with notes.
    - rewrite <- sortNotes_perm. rewrite Forall_forall in *.
      intros n Hn. specialize (Hpitch n Hn). specialize (Hsteps n Hn).
      cbn beta in *. unfold inRange. cbn. lia.
    - rewrite <- sortNotes_perm. eapply Forall_impl; [exact Hsteps|].
      cbn beta. intros; lia. }
  rewrite Hlen in Hpl, E2.
  destruct (labelsOf_roundtrip c eq_refl Hexact _ Hpl) as (labels & E & Hok & Hdec).
  unfold MelodyConverter.labelsOf in E. fold mel in E. rewrite E2 in E.
  injection E as <-. unfold TensorBuffer.toTensor1D in Hok, Hdec.
  exists (oneHot (TensorBuffer.values mel') (MelodyConverter.depth c)). split.
  - apply toTensor_ok with (lastEnd := e1); [apply Hd | done].
  - unfold MelodyConverter.toNoteSequence. rewrite argMax_oneHot by done.
    by rewrite Hdec.
Qed.

Lemma melody_roundtrip_clips_end_witness :
  exists oh,
    snd (MelodyConverter.toTensor
           (MelodyConverter.create (MelodyConverter.mkArgs 4 60 61 None))
           [mkNote 61 2 9; mkNote 60 0 2]) = Ok oh /\
    MelodyConverter.toNoteSequence
      (MelodyConverter.create (MelodyConverter.mkArgs 4 60 61 None)) oh =
    Ok (clipEnd (Z.of_nat 4) <$> sortNotes [mkNote 61 2 9; mkNote 60 0 2]).
Proof.
  apply (melody_roundtrip_clips_end (MelodyConverter.mkArgs 4 60 61 None)
           [mkNote 61 2 9; mkNote 60 0 2]).
  - cbn. lia.
  - cbn. split; [|split; [constructor | exact I]].
    constructor; [|constructor]. unfold disjointNotes. cbn. lia.
  - repeat constructor; cbn; lia.
  - repeat constructor; cbn; lia.
Defined.

Lemma insertNote_app (a : Note) (l1 l2 : list Note) :
  Forall (startLe a) l2 -> insertNote a (l1 ++ l2) = insertNote a l1 ++ l2.
Proof.
  intros Hl2. induction l1 as [|m l1 IH]; cbn [app insertNote].
  - destruct Hl2 as [|b l2 Hb _]; [done|]. cbn [insertNote].
    unfold startLe in Hb.
    by destruct (Z.leb_spec (quantizedStartStep a) (quantizedStartStep b)); [|lia].
  - destruct (_ <=? _); [done|]. by rewrite IH.
Qed.

Lemma sortNotes_app (l1 l2 : list Note) :
  Forall (fun a => Forall (startLe a) l2) l1 ->
  sortNotes (l1 ++ l2) = sortNotes l1 ++ sortNotes l2.
Proof.
  induction 1 as [|a l1 Ha _ IH]; [done|].
  cbn [app sortNotes]. rewrite IH. apply insertNote_app.
  by rewrite <- sortNotes_perm.
Qed.

Lemma forEach_app_Ok {S A : Type} (body : S -> A -> result S) (l1 l2 : list A)
    (s s2 : S) :
  forEach body (l1 ++ l2) s = Ok s2 ->
  exists s1, forEach body l1 s = Ok s1 /\ forEach body l2 s1 = Ok s2.
Proof.
  revert s. induction l1 as [|x l1 IH]; intros s H; cbn [forEach app] in *.
  - by exists s.
  - destruct (body s x); [by apply IH | done].
Qed.

Lemma forEach_shape (c : MelodyConverter.t) (l : list Note)
    (mel mel' : TensorBuffer.t) (lastEnd lastEnd' : Z) :
  forEach (MelodyConverter.placeNote c) l (mel, lastEnd) = Ok (mel', lastEnd') ->
  TensorBuffer.shape mel' = TensorBuffer.shape mel /\
  length (TensorBuffer.values mel') = length (TensorBuffer.values mel).
Proof.
  revert mel lastEnd. induction l as [|n l IH]; intros mel lastEnd H.
  - cbn in H. by injection H as <- <-.
  - cbn [forEach] in H.
    destruct (placeNote_cases c mel lastEnd n)
      as [(Hle & Hin & _)|[(_ & E)|(_ & _ & E)]]; [|by rewrite E in H..].
    rewrite placeNote_ok in H by done.
    apply IH in H as [-> ->]. unfold TensorBuffer.set. cbn.
    by rewrite !length_typedArraySet.
Qed.

(** Notes lying wholly past the last step write nothing. *)
Lemma forEach_late (c : MelodyConverter.t) (l : list Note)
    (mel mel' : TensorBuffer.t) (lastEnd lastEnd' : Z) :
  length (TensorBuffer.shape mel) = 1%nat ->
  Forall (fun n =>
            Z.of_nat (length (TensorBuffer.values mel)) <= quantizedStartStep n /\
            Z.of_nat (length (TensorBuffer.values mel)) <= quantizedEndStep n) l ->
  forEach (MelodyConverter.placeNote c) l (mel, lastEnd) = Ok (mel', lastEnd') ->
  TensorBuffer.values mel' = TensorBuffer.values mel.
Proof.
  revert mel lastEnd. induction l as [|n l IH]; intros mel lastEnd Hrank Hlate H.
  - cbn in H. by injection H as <- <-.
  - apply Forall_cons in Hlate as [[Hs He] Hlate]. cbn [forEach] in H.
    destruct (placeNote_cases c mel lastEnd n)
      as [(Hle & Hin & _)|[(_ & E)|(_ & _ & E)]]; [|by rewrite E in H..].
    rewrite placeNote_ok in H by done.
    set (b := TensorBuffer.set mel _ [Some (quantizedStartStep n)]) in H.
    assert (b = TensorBuffer.mk (TensorBuffer.shape mel) (TensorBuffer.strides mel)
                  (TensorBuffer.values mel)) as Hb
      by (by apply set_rank1_ge).
    rewrite (set_rank1_ge b _ (quantizedEndStep n)) in H by (by rewrite Hb).
    rewrite Hb in H. cbn [TensorBuffer.shape TensorBuffer.strides TensorBuffer.values] in H.
    by apply IH in H.
Qed.

(** X7: notes lying wholly past the timeline are dropped without an error.
    If the encoder succeeds on a sequence followed by notes whose start and
    end steps are at or after [numSteps], the tensor is the one it returns
    for the sequence alone. *)
Theorem melody_toTensor_drops_late_notes (c : MelodyConverter.t)
    (ns late : list Note) (oh : Tensor2D) :
  Forall (fun n => quantizedStartStep n < Z.of_nat (MelodyConverter.numSteps c)) ns ->
  Forall (fun n => Z.of_nat (MelodyConverter.numSteps c) <= quantizedStartStep n /\
                   Z.of_nat (MelodyConverter.numSteps c) <= quantizedEndStep n) late ->
  snd (MelodyConverter.toTensor c (ns ++ late)) = Ok oh ->
  snd (MelodyConverter.toTensor c ns) = Ok oh.
Proof.
  intros Hns Hlate H.
  set (mel := TensorBuffer.buffer [Z.of_nat (MelodyConverter.numSteps c)]).
  assert (length (TensorBuffer.values mel) = MelodyConverter.numSteps c) as Hlen.
  { cbn. rewrite length_replicate. lia. }
  destruct (forEach (MelodyConverter.placeNote c) (sortNotes (ns ++ late)) (mel, -1))
    as [[mel2 e2]|e] eqn:E.
  2:{ apply toTensor_throw in E. congruence. }
  pose proof (toTensor_placed c _ _ _ E) as H2.
  rewrite sortNotes_app in E.
  2:{ eapply Forall_impl; [exact Hns|]. intros a Ha. cbn beta in Ha.
      eapply Forall_impl; [exact Hlate|]. unfold startLe. cbn. intros; lia. }
  apply forEach_app_Ok in E as ([mel1 e1] & E1 & E2).
  destruct (forEach_shape _ _ _ _ _ _ E1) as [Hshape Hlen1].
  apply forEach_late in E2.
  - rewrite (toTensor_placed c _ _ _ E1). rewrite <- E2. congruence.
  - by rewrite Hshape.
  - rewrite Hlen1, Hlen, <- sortNotes_perm. done.
Qed.

Lemma melody_toTensor_drops_late_notes_witness :
  snd (MelodyConverter.toTensor melody4 [mkNote 60 0 2]) =
  Ok [[0; 0; 1; 0]; [1; 0; 0; 0]; [0; 1; 0; 0]; [1; 0; 0; 0]].
Proof.
  apply (melody_toTensor_drops_late_notes melody4 [mkNote 60 0 2] [mkNote 61 4 6]).
  - repeat constructor; cbn; lia.
  - repeat constructor; cbn; lia.
  - reflexivity.
Defined.

Section MelodyDecodeSpec.
Context (c : MelodyConverter.t).

Lemma decodeLoop_noteOns (labels : list Z) (k from : nat)
    (st : option Note * list Note) :
  (forall i, 0 <= nth i labels 0) ->
  stateOnsets (MelodyConverter.decodeLoop c labels from k st) =
  stateOnsets st ++
  flat_map
    (fun s =>
       if 2 <=? nth s labels 0
       then [(Z.of_nat s, nth s labels 0 - 2 + MelodyConverter.minPitch c)]
       else [])
    (seq from k).
Proof.
  intros Hpos. revert from st. induction k as [|k IH]; intros from st.
  - cbn. by rewrite app_nil_r.
  - cbn [MelodyConverter.decodeLoop seq flat_map]. rewrite IH, app_assoc. f_equal.
    destruct st as [cur out]. specialize (Hpos from).
    destruct (Z.leb_spec 2 (nth from labels 0)) as [H2|H2].
    + rewrite decodeStep_on by done. unfold stateOnsets. cbn [fst snd].
      destruct cur as [n|]; [by rewrite fmap_app | by rewrite app_nil_r].
    + assert (nth from labels 0 = 0 \/ nth from labels 0 = 1) as [->| ->] by lia.
      * rewrite decodeStep_0. by rewrite app_nil_r.
      * rewrite decodeStep_1. unfold stateOnsets. destruct cur as [n|]; cbn [fst snd].
        -- by rewrite fmap_app, !app_nil_r.
        -- by rewrite !app_nil_r.
Qed.

Lemma decodeLoop_ends (labels : list Z) (k from : nat)
    (st : option Note * list Note) :
  (forall i, 0 <= nth i labels 0) ->
  (from + k <= length labels)%nat ->
  decodeEnds labels from st ->
  decodeEnds labels (from + k) (MelodyConverter.decodeLoop c labels from k st).
Proof.
  intros Hpos. revert from st. induction k as [|k IH]; intros from st Hlen Hst.
  - by rewrite Nat.add_0_r.
  - cbn [MelodyConverter.decodeLoop].
    replace (from + S k)%nat with (S from + k)%nat by lia.
    apply IH; [lia|]. clear IH.
    destruct st as [cur out]. destruct Hst as [Hout Hcur]. cbn [fst snd] in *.
    specialize (Hpos from).
    assert (forall n, cur = Some n -> nth from labels 0 <> 0 ->
              endsAtNextEvent labels (setEnd n (Z.of_nat from))) as Hclose.
    { intros n -> Hne. destruct Hcur as (s0 & Hs0 & Hlt & Hz).
      exists s0, from. cbn. split_and!; try done; try lia. }
    destruct (Z.leb_spec 2 (nth from labels 0)) as [H2|H2].
    + rewrite decodeStep_on by done. split; cbn [fst snd].
      * destruct cur as [n|]; [|done]. apply Forall_app. split; [done|].
        constructor; [|done]. apply Hclose; [done | lia].
      * exists from. cbn. split_and!; [done|lia|]. intros; lia.
    + assert (nth from labels 0 = 0 \/ nth from labels 0 = 1) as [E|E] by lia.
      * rewrite E, decodeStep_0. split; [done|]. cbn [fst].
        destruct cur as [n|]; [|done]. destruct Hcur as (s0 & Hs0 & Hlt & Hz).
        exists s0. split_and!; [done|lia|]. intros j Hj.
        destruct (decide (j = from)) as [->|]; [done|]. apply Hz. lia.
      * rewrite E, decodeStep_1. destruct cur as [n|]; [|done].
        split; [|done]. cbn [snd]. apply Forall_app. split; [done|].
        constructor; [|done]. apply Hclose; [done | lia].
Qed.

End MelodyDecodeSpec.

(** X5: for every tensor, the decoder emits exactly one note per note-on
    label, in step order: the start steps and pitches of the decoded notes
    are the steps holding a label of at least 2 and the pitches
    [label - 2 + minPitch] of those labels. *)
Theorem melody_decode_onsets (c : MelodyConverter.t) (oh : Tensor2D) :
  exists notes,
    MelodyConverter.toNoteSequence c oh = Ok notes /\
    onsetOf <$> notes = noteOns c (argMax oh).
Proof.
  eexists. split; [reflexivity|].
  unfold MelodyConverter.decodeLabels, noteOns.
  pose proof (decodeLoop_noteOns c (argMax oh) (length (argMax oh)) 0 (None, [])
                (argMax_nth_nonneg oh)) as H.
  destruct (MelodyConverter.decodeLoop c (argMax oh) 0 (length (argMax oh)) (None, []))
    as [cur out].
  unfold stateOnsets in H. cbn [fst snd fmap list_fmap app] in H. rewrite <- H.
  destruct cur as [n|]; [|by rewrite app_nil_r].
  by rewrite fmap_app.
Qed.

(** X8: for every tensor, every decoded note ends at the first event after
    its start: all steps strictly between its start and its end hold label
    0, and its end is either a step holding a note-off or a note-on, or the
    number of steps of the tensor. *)
Theorem melody_decode_ends_at_next_event (c : MelodyConverter.t) (oh : Tensor2D) :
  exists notes,
    MelodyConverter.toNoteSequence c oh = Ok notes /\
    Forall (endsAtNextEvent (argMax oh)) notes.
Proof.
  eexists. split; [reflexivity|].
  unfold MelodyConverter.decodeLabels.
  pose proof (decodeLoop_ends c (argMax oh) (length (argMax oh)) 0 (None, [])
                (argMax_nth_nonneg oh) ltac:(lia)) as H.
  destruct (MelodyConverter.decodeLoop c (argMax oh) 0 (length (argMax oh)) (None, []))
    as [cur out].
  destruct H as [Hout Hcur]; [by split|]. cbn [fst snd] in *.
  destruct cur as [n|]; [|done].
  apply Forall_app. split; [done|]. constructor; [|done].
  destruct Hcur as (s0 & Hs0 & Hlt & Hz).
  exists s0, (length (argMax oh)). cbn. split_and!; try done; try lia.
Qed.

(** * Further properties of the drum converters *)

Lemma register_class (c : nat) (cls : list Z) (m : gmap Z nat) (p : Z) :
  fold_left (fun m p => <[p := c]> m) cls m !! p =
  if decide (p ∈ cls) then Some c else m !! p.
Proof.
  revert m. induction cls as [|q cls IH]; intros m; cbn [fold_left].
  - case_decide as H; [by apply elem_of_nil in H | done].
  - rewrite IH. destruct (decide (p ∈ cls)) as [Hin|Hin].
    + rewrite decide_True; [done | by right].
    + destruct (decide (q = p)) as [->|Hne].
      * rewrite lookup_insert_eq. rewrite decide_True; [done | by left].
      * rewrite lookup_insert_ne by done.
        rewrite decide_False; [done|]. intros [->|H]%elem_of_cons; done.
Qed.

Lemma register_None (c : nat) (classes : list (list Z)) (m : gmap Z nat) (p : Z) :
  DrumsConverter.register c classes m !! p = None <->
  m !! p = None /\ forall cls, cls ∈ classes -> p ∉ cls.
Proof.
  revert c m. induction classes as [|cls0 rest IH]; intros c m.
  - cbn. split; [|tauto]. intros H. split; [done|]. intros cls Hc.
    by apply elem_of_nil in Hc.
  - cbn [DrumsConverter.register]. rewrite IH, register_class. split.
    + intros [H Hrest]. case_decide as Hin; [done|]. split; [done|].
      intros cls [->|Hc]%elem_of_cons; auto.
    + intros [H Hall]. rewrite decide_False by (apply Hall; by left).
      split; [done|]. intros cls Hc. apply Hall. by right.
Qed.

Lemma register_Some (c : nat) (classes : list (list Z)) (m : gmap Z nat)
    (p : Z) (k : nat) :
  DrumsConverter.register c classes m !! p = Some k <->
  (exists j cls,
     k = (c + j)%nat /\ classes !! j = Some cls /\ p ∈ cls /\
     forall j' cls', (j < j')%nat -> classes !! j' = Some cls' -> p ∉ cls') \/
  (m !! p = Some k /\ forall cls, cls ∈ classes -> p ∉ cls).
Proof.
  revert c m. induction classes as [|cls0 rest IH]; intros c m.
  - cbn. split.
    + intros H. right. split; [done|]. intros cls Hc. by apply elem_of_nil in Hc.
    + intros [(j & cls & _ & Hj & _)|[H _]]; done.
  - cbn [DrumsConverter.register]. rewrite IH, register_class. split.
    + intros [(j & cls & -> & Hj & Hin & Hlast)|[H Hrest]].
      * left. exists (S j), cls. split_and!; [lia|done|done|].
        intros [|j'] cls' Hlt Hj'; [lia|]. apply (Hlast j'); [lia | done].
      * case_decide as Hin.
        -- injection H as <-. left. exists 0%nat, cls0. split_and!; [lia|done|done|].
           intros [|j'] cls' Hlt Hj'; [lia|]. apply Hrest.
           apply list_elem_of_lookup. eauto.
        -- right. split; [done|]. intros cls [->|Hc]%elem_of_cons; auto.
    + intros [(j & cls & -> & Hj & Hin & Hlast)|[H Hall]].
      * destruct j as [|j]; cbn in Hj.
        -- injection Hj as ->. right. rewrite decide_True by done.
           split; [f_equal; lia|]. intros cls' [i Hi]%list_elem_of_lookup.
           apply (Hlast (S i)); [lia | done].
        -- left. exists j, cls. split_and!; [lia|done|done|].
           intros j' cls' Hlt Hj'. apply (Hlast (S j')); [lia | done].
      * right. rewrite decide_False by (apply Hall; by left).
        split; [done|]. intros cls Hc. apply Hall. by right.
Qed.

(** X9: the constructor maps every pitch to the last class that lists it,
    and leaves unmapped exactly the pitches that no class lists. *)
Theorem drums_pitchToClass_last_class (args : DrumsConverter.Args) (p : Z) :
  (forall k,
     DrumsConverter.pitchToClass (DrumsConverter.create args) !! p = Some k <->
     exists cls,
       DrumsConverter.pitchClasses (DrumsConverter.create args) !! k = Some cls /\
       In p cls /\
       forall k' cls',
         (k < k')%nat ->
         DrumsConverter.pitchClasses (DrumsConverter.create args) !! k' = Some cls' ->
         ~ In p cls') /\
  (DrumsConverter.pitchToClass (DrumsConverter.create args) !! p = None <->
   forall cls,
     In cls (DrumsConverter.pitchClasses (DrumsConverter.create args)) ->
     ~ In p cls).
Proof.
  cbn [DrumsConverter.create DrumsConverter.pitchToClass DrumsConverter.pitchClasses].
  split.
  - intros k. rewrite register_Some. split.
    + intros [(j & cls & -> & Hj & Hin & Hlast)|[H _]]; [|by rewrite lookup_empty in H].
      exists cls. split_and!; [done | by apply list_elem_of_In |].
      intros k' cls' Hlt Hk'. rewrite <- list_elem_of_In. by eapply Hlast.
    + intros (cls & Hk & Hin & Hlast). left. exists k, cls.
      split_and!; [done | done | by apply list_elem_of_In |].
      intros k' cls' Hlt Hk'. rewrite list_elem_of_In. by eapply Hlast.
  - rewrite register_None. split.
    + intros [_ H] cls Hc. rewrite <- list_elem_of_In. apply H.
      by apply list_elem_of_In.
    + intros H. split; [apply lookup_empty|]. intros cls Hc.
      rewrite list_elem_of_In. apply H. by apply list_elem_of_In.
Qed.

Lemma existsb_seqZ (x m : Z) (n : Z) :
  existsb (fun i => i =? x) (seqZ m n) = (m <=? x) && (x <? m + n).
Proof.
  destruct (existsb _ _) eqn:E.
  - apply existsb_exists in E as (i & Hi & Heq).
    apply list_elem_of_In, elem_of_seqZ in Hi. apply Z.eqb_eq in Heq. subst.
    symmetry. apply andb_true_iff. split; [apply Z.leb_le | apply Z.ltb_lt]; lia.
  - symmetry. apply andb_false_iff.
    destruct (Z.leb_spec m x); [|by left]. destruct (Z.ltb_spec x (m + n)); [|by right].
    assert (existsb (fun i => i =? x) (seqZ m n) = true) as E'; [|congruence].
    apply existsb_exists. exists x. split; [|apply Z.eqb_refl].
    apply list_elem_of_In, elem_of_seqZ. lia.
Qed.

Lemma existsb_same_members {A : Type} (f : A -> bool) (l l' : list A) :
  (forall x, In x l <-> In x l') -> existsb f l = existsb f l'.
Proof.
  intros H. apply eq_true_iff_eq. rewrite !existsb_exists.
  split; intros (x & Hx & Hf); exists x; (split; [by apply H | done]).
Qed.

Section DrumsLastColumn.
Context (c : DrumsConverter.t).
Hypothesis Hvalid : forall p k,
  DrumsConverter.pitchToClass c !! p = Some k ->
  (k < length (DrumsConverter.pitchClasses c))%nat.

(** The flat index of the last cell of row [r] is the one a write aimed at
    column [-1] of row [i] computes exactly when [i = r + 1]. *)
Lemma last_cell_index (r : nat) (i : Z) :
  Z.of_nat (cellIndex c r (classCount c)) = -1 + 1 * width c * i <->
  i = Z.of_nat r + 1.
Proof.
  unfold cellIndex, width. split; [|intros ->; lia].
  intros H.
  destruct (cell_index_inj (Z.of_nat (classCount c) + 1) (Z.of_nat r) (i - 1)
              (Z.of_nat (classCount c)) (Z.of_nat (classCount c))); lia.
Qed.

Lemma nth_set_class_last (b : TensorBuffer.t) (v i : Z) (k : jsnum) (r : nat) :
  rollShaped c b ->
  (forall k', k = Some k' -> 0 <= k' < Z.of_nat (classCount c)) ->
  nth (cellIndex c r (classCount c))
      (TensorBuffer.values (TensorBuffer.set b v [Some i; k])) 0 =
  nth (cellIndex c r (classCount c)) (TensorBuffer.values b) 0.
Proof.
  intros Hb Hk. destruct k as [k'|]; [|by rewrite (set_roll_undefined c)].
  rewrite (set_roll c), nth_typedArraySet by done.
  case_decide as H; [|done]. destruct H as [H _]. exfalso.
  specialize (Hk k' eq_refl). unfold cellIndex, width in H.
  destruct (cell_index_inj (Z.of_nat (classCount c) + 1) (Z.of_nat r) i
              (Z.of_nat (classCount c)) k'); lia.
Qed.

Lemma nth_set_last_cell (b : TensorBuffer.t) (v i : Z) (r : nat) :
  rollShaped c b ->
  (cellIndex c r (classCount c) < length (TensorBuffer.values b))%nat ->
  nth (cellIndex c r (classCount c))
      (TensorBuffer.values (TensorBuffer.set b v [Some i; Some (-1)])) 0 =
  if i =? Z.of_nat r + 1 then fround v
  else nth (cellIndex c r (classCount c)) (TensorBuffer.values b) 0.
Proof.
  intros Hb Hlen. rewrite (set_roll c), nth_typedArraySet by done.
  destruct (Z.eqb_spec i (Z.of_nat r + 1)) as [->|Hne]; case_decide as H; try done.
  - destruct H. split; [|done]. by apply last_cell_index.
  - destruct H as [H _]. by apply last_cell_index in H.
Qed.

Lemma nth_fold_addNote_last (notes : list Note) (b : TensorBuffer.t) (r : nat) :
  rollShaped c b ->
  (cellIndex c r (classCount c) < length (TensorBuffer.values b))%nat ->
  nth (cellIndex c r (classCount c))
      (TensorBuffer.values (fold_left (DrumsConverter.addNote c) notes b)) 0 =
  if existsb (fun n => quantizedStartStep n =? Z.of_nat r + 1) notes then 0
  else nth (cellIndex c r (classCount c)) (TensorBuffer.values b) 0.
Proof.
  revert b. induction notes as [|note notes IH]; intros b Hb Hlen; [done|].
  cbn [fold_left existsb]. rewrite IH; [|done|].
  2:{ unfold DrumsConverter.addNote. by rewrite !set_length. }
  unfold DrumsConverter.addNote.
  rewrite nth_set_last_cell; [|done|by rewrite set_length].
  rewrite nth_set_class_last; [|done|].
  2:{ unfold DrumsConverter.classOf. intros k' Hk'.
      destruct (DrumsConverter.pitchToClass c !! pitch note) as [k|] eqn:E; [|done].
      injection Hk' as <-. apply Hvalid in E. unfold classCount. lia. }
  by destruct (_ =? _), (existsb _ _).
Qed.

Lemma nth_initRoll_last (r : nat) :
  (r < DrumsConverter.numSteps c)%nat ->
  nth (cellIndex c r (classCount c))
      (TensorBuffer.values (DrumsConverter.initRoll c)) 0 =
  if Z.of_nat r + 1 <? Z.of_nat (DrumsConverter.numSteps c) then 1 else 0.
Proof.
  intros Hr. unfold DrumsConverter.initRoll.
  set (b0 := TensorBuffer.buffer _).
  assert (rollShaped c b0) as Hb0 by done.
  assert (cellIndex c r (classCount c) < length (TensorBuffer.values b0))%nat as Hlen0.
  { unfold b0. cbn. rewrite length_replicate. unfold cellIndex, width, classCount. nia. }
  assert (nth (cellIndex c r (classCount c)) (TensorBuffer.values b0) 0 = 0) as Hz0.
  { cbn [b0 TensorBuffer.buffer TensorBuffer.values].
    rewrite nth_lookup. destruct (replicate _ _ !! _) eqn:E; [|done].
    apply lookup_replicate in E. cbn. tauto. }
  assert (forall (l : list Z) b, rollShaped c b ->
            (cellIndex c r (classCount c) < length (TensorBuffer.values b))%nat ->
            nth (cellIndex c r (classCount c))
                (TensorBuffer.values
                   (fold_left (fun b i => TensorBuffer.set b 1 [Some i; Some (-1)]) l b)) 0 =
            if existsb (fun i => i =? Z.of_nat r + 1) l then 1
            else nth (cellIndex c r (classCount c)) (TensorBuffer.values b) 0) as Hfold.
  { induction l as [|i l IH]; intros b Hb Hlen; [done|].
    cbn [fold_left existsb]. rewrite IH; [|done|by rewrite set_length].
    rewrite nth_set_last_cell by done.
    by destruct (_ =? _), (existsb _ _). }
  rewrite Hfold, existsb_seqZ, Hz0, Z.add_0_l by done.
  destruct (Z.ltb_spec (Z.of_nat r + 1) (Z.of_nat (DrumsConverter.numSteps c)));
    destruct (Z.leb_spec 0 (Z.of_nat r + 1)); cbn; try done; lia.
Qed.

(** The roll, cell by cell. *)
Lemma toTensor_expectedRoll (notes : list Note) :
  DrumsConverter.toTensor c notes = Ok (expectedRoll c notes).
Proof.
  unfold DrumsConverter.toTensor. f_equal.
  destruct (initRoll_spec c) as ([Hshape Hstrides] & Hlen & Hzero).
  destruct (fold_addNote_shape c notes (DrumsConverter.initRoll c)) as [Hshape' Hlen'].
  unfold TensorBuffer.toTensor2D, TensorBuffer.rows, expectedRoll.
  rewrite Hshape', Hshape, Nat2Z.id.
  apply list_fmap_ext. intros i r Hr. apply lookup_seq in Hr as [-> Hr].
  cbn [Nat.add]. apply list_eq. intros k.
  assert (Z.to_nat (width c) = S (classCount c)) as HW by (unfold width; lia).
  assert (forall k, (k <= classCount c)%nat ->
            cellIndex c i k <
            length (TensorBuffer.values (DrumsConverter.initRoll c)))%nat as Hin.
  { intros k' Hk'. rewrite Hlen. unfold cellIndex, width in *. nia. }
  destruct (decide (k <= classCount c)%nat) as [Hk|Hk].
  - rewrite lookup_take_lt by lia. rewrite lookup_drop.
    fold (cellIndex c i k). rewrite lookup_nth_lt by (rewrite Hlen'; by apply Hin).
    destruct (decide (k = classCount c)) as [->|Hne].
    + rewrite lookup_app_r by (rewrite length_fmap, length_seq; lia).
      rewrite length_fmap, length_seq, Nat.sub_diag. cbn [lookup list_lookup].
      rewrite nth_fold_addNote_last by (done || by apply Hin).
      rewrite nth_initRoll_last by done. unfold lastCell.
      by destruct (_ <? _), (existsb _ _).
    + rewrite lookup_app_l by (rewrite length_fmap, length_seq; lia).
      rewrite list_lookup_fmap, lookup_seq_lt by lia.
      rewrite nth_fold_addNote by (done || lia || (apply Hin; lia)).
      rewrite Hzero by lia. done.
  - rewrite lookup_take_ge by lia.
    symmetry. apply lookup_ge_None.
    rewrite length_app, length_fmap, length_seq. cbn. lia.
Qed.

End DrumsLastColumn.

(** X10: the roll the encoder returns, cell by cell.  It has [numSteps]
    rows of [classCount + 1] columns; the cell of row [s] and class [k] is 1
    when some note starts at step [s] with a pitch registered in class [k],
    and 0 otherwise; the last cell of row [s] is 1 when [s + 1 < numSteps]
    and no note starts at step [s + 1], and 0 otherwise (the writes aimed
    at column [-1] land one row up). *)
Theorem drums_toTensor_cells (args : DrumsConverter.Args) (notes : list Note) :
  DrumsConverter.toTensor (DrumsConverter.create args) notes =
  Ok (expectedRoll (DrumsConverter.create args) notes).
Proof. apply toTensor_expectedRoll, create_pitchToClass_bound. Qed.

(** X11: the roll depends only on which notes the sequence contains, not on
    their order or on repetitions: two sequences with the same members are
    encoded to the same roll. *)
Theorem drums_toTensor_same_members (args : DrumsConverter.Args)
    (notes notes' : list Note) :
  (forall n, In n notes <-> In n notes') ->
  DrumsConverter.toTensor (DrumsConverter.create args) notes =
  DrumsConverter.toTensor (DrumsConverter.create args) notes'.
Proof.
  intros H.
  rewrite !toTensor_expectedRoll by apply create_pitchToClass_bound.
  f_equal. unfold expectedRoll. apply list_fmap_ext. intros _ r _. f_equal.
  - apply list_fmap_ext. intros _ k _. unfold activeCell.
    by rewrite (existsb_same_members _ notes notes').
  - unfold lastCell. by rewrite (existsb_same_members _ notes notes').
Qed.

Lemma drums_toTensor_same_members_witness :
  DrumsConverter.toTensor drums2 [mkNote 38 1 2; mkNote 36 0 1] =
  DrumsConverter.toTensor drums2 [mkNote 36 0 1; mkNote 38 1 2; mkNote 36 0 1].
Proof.
  apply (drums_toTensor_same_members
           (DrumsConverter.mkArgs 2 None (Some [[36]; [38]]))
           [mkNote 38 1 2; mkNote 36 0 1]
           [mkNote 36 0 1; mkNote 38 1 2; mkNote 36 0 1]).
  intros n. cbn. tauto.
Defined.

Lemma flat_map_seq_shift {A : Type} (f : nat -> list A) (a n : nat) :
  flat_map f (seq (S a) n) = flat_map (fun i => f (S i)) (seq a n).
Proof.
  revert a. induction n as [|n IH]; intros a; [done|].
  cbn [seq flat_map]. by rewrite IH.
Qed.

Section DrumRollAnyRoll.
Context (c : DrumsConverter.t).

(** The inner loop on a row that starts at column [p]. *)
Lemma rowNotes_any (s : Z) (row : list Z) (p : nat) (out : list Note) :
  DrumRollConverter.rowNotes c s p row out =
  if forallb (fun v => v =? 0) (drop (classCount c - p) row)
  then Ok (out ++
           flat_map
             (fun i => if nth i row 0 =? 0 then []
                       else [mkNote (canonicalPitch c (p + i)) s (s + 1)])
             (seq 0 (length row)))
  else Throw TypeError.
Proof.
  revert p out. induction row as [|v row IH]; intros p out.
  - rewrite drop_nil. cbn. by rewrite app_nil_r.
  - cbn [DrumRollConverter.rowNotes length seq flat_map].
    rewrite flat_map_seq_shift.
    rewrite (flat_map_ext _
               (fun i => if nth i row 0 =? 0 then []
                         else [mkNote (canonicalPitch c (S p + i)) s (s + 1)])).
    2:{ intros i. cbn [nth]. by replace (p + S i)%nat with (S p + i)%nat by lia. }
    cbn [nth]. rewrite Nat.add_0_r.
    destruct (decide (p < classCount c)%nat) as [Hp|Hp].
    + destruct (classCount c - p)%nat as [|m] eqn:Em; [lia|].
      cbn [drop]. replace m with (classCount c - S p)%nat by lia.
      destruct (lookup_lt_is_Some_2 (DrumsConverter.pitchClasses c) p) as [cls Hcls];
        [done|].
      rewrite Hcls, !IH.
      destruct (forallb _ _); [|by destruct (v =? 0)].
      destruct (v =? 0); [done|]. unfold canonicalPitch.
      by rewrite (nth_lookup_Some _ _ _ _ Hcls), <- app_assoc.
    + replace (classCount c - p)%nat with 0%nat by lia.
      rewrite drop_0. cbn [forallb].
      rewrite (lookup_ge_None_2 (DrumsConverter.pitchClasses c) p)
        by (unfold classCount in Hp; lia).
      destruct (v =? 0); [|done]. rewrite IH.
      by replace (classCount c - S p)%nat with 0%nat by lia.
Qed.

(** The outer loop on a roll whose first row is step [s0]. *)
Lemma rollNotes_any (roll : Tensor2D) (s0 : nat) (out : list Note) :
  DrumRollConverter.rollNotes c (Z.of_nat s0) roll out =
  if extraCellsZero c roll
  then Ok (out ++
           flat_map (fun s => rowCellNotes c (Z.of_nat (s0 + s)) (nth s roll []))
                    (seq 0 (length roll)))
  else Throw TypeError.
Proof.
  revert s0 out. induction roll as [|row roll IH]; intros s0 out.
  - cbn. by rewrite app_nil_r.
  - cbn [DrumRollConverter.rollNotes length seq flat_map extraCellsZero forallb].
    rewrite rowNotes_any, Nat.sub_0_r.
    destruct (forallb _ (drop _ row)); [|done]. cbn [andb].
    change (flat_map _ (seq 0 (length row)))
      with (rowCellNotes c (Z.of_nat s0) row).
    replace (Z.of_nat s0 + 1) with (Z.of_nat (S s0)) by lia.
    rewrite IH. fold (extraCellsZero c roll).
    destruct (extraCellsZero c roll); [|done].
    rewrite flat_map_seq_shift.
    rewrite (flat_map_ext (fun s => rowCellNotes c (Z.of_nat (s0 + S s))
                                      (nth (S s) (row :: roll) []))
               (fun s => rowCellNotes c (Z.of_nat (S s0 + s)) (nth s roll []))).
    2:{ intros s. cbn [nth]. by replace (s0 + S s)%nat with (S s0 + s)%nat by lia. }
    cbn [nth]. by rewrite Nat.add_0_r, <- app_assoc.
Qed.

End DrumRollAnyRoll.

(** X12: the raw decoder on any tensor.  When every cell in a column
    without a class is 0 it returns one unit-length note, with the first
    pitch of the class, for each nonzero cell, row by row and column by
    column; when some such cell is not 0 it fails with a TypeError. *)
Theorem drum_roll_decode_any_roll (c : DrumsConverter.t) (roll : Tensor2D) :
  DrumRollConverter.toNoteSequence c roll =
  if extraCellsZero c roll then Ok (cellNotes c roll) else Throw TypeError.
Proof.
  unfold DrumRollConverter.toNoteSequence. change 0 with (Z.of_nat 0).
  by rewrite rollNotes_any.
Qed.

Lemma rowLabel_bound (row : list Z) :
  0 <= rowLabel row < 2 ^ Z.of_nat (length row).
Proof.
  induction row as [|v row IH]; [cbn; lia|].
  cbn [rowLabel fold_right length]. fold (rowLabel row).
  rewrite Nat2Z.inj_succ, Z.pow_succ_r by lia.
  destruct (negb (v =? 0)); cbn [Z.b2z]; lia.
Qed.

Lemma rowLabel_testbit (row : list Z) (i : nat) :
  Z.testbit (rowLabel row) (Z.of_nat i) = negb (nth i row 0 =? 0).
Proof.
  revert i. induction row as [|v row IH]; intros i.
  - cbn [rowLabel fold_right]. rewrite Z.testbit_0_l. by destruct i.
  - cbn [rowLabel fold_right]. fold (rowLabel row). destruct i as [|i].
    + cbn [nth]. apply Z.testbit_0_r.
    + cbn [nth]. rewrite Nat2Z.inj_succ, Z.testbit_succ_r by lia. apply IH.
Qed.

Lemma labelBit_rowLabel (row : list Z) (i : nat) :
  (i < 32)%nat ->
  (DrumsLabelDecoder.labelBit (rowLabel row) i =? 0) = (nth i row 0 =? 0).
Proof.
  intros Hi. unfold DrumsLabelDecoder.labelBit.
  rewrite Z.mod_small by lia.
  change 1 with (Z.ones 1) at 1. rewrite Z.land_ones by lia.
  change (2 ^ 1) with 2. rewrite <- Z.bit0_mod, Z.shiftr_spec by lia.
  rewrite Z.add_0_l, rowLabel_testbit.
  by destruct (nth i row 0 =? 0).
Qed.

Section DrumsLabels.
Context (c : DrumsConverter.t).
Hypothesis Hint32 : (classCount c <= 31)%nat.

(** On a label whose bits are the cells of the row, the loop over the
    classes does what the raw decoder does on the row. *)
Lemma classNotes_rowNotes (s label : Z) (row : list Z) (p : nat) (out : list Note) :
  (p + length row <= classCount c)%nat ->
  (forall i, (i < length row)%nat ->
     (DrumsLabelDecoder.labelBit label (p + i) =? 0) = (nth i row 0 =? 0)) ->
  DrumRollConverter.rowNotes c s p row out =
  Ok (DrumsLabelDecoder.classNotes c s label p (length row) out).
Proof.
  revert p out. induction row as [|v row IH]; intros p out Hp Hbits; [done|].
  cbn [DrumRollConverter.rowNotes DrumsLabelDecoder.classNotes length] in *.
  pose proof (Hbits 0%nat ltac:(lia)) as H0. rewrite Nat.add_0_r in H0. cbn [nth] in H0.
  assert (forall i, (i < length row)%nat ->
            (DrumsLabelDecoder.labelBit label (S p + i) =? 0) = (nth i row 0 =? 0))
    as Hbits'.
  { intros i Hi. specialize (Hbits (S i) ltac:(lia)). cbn [nth] in Hbits.
    by replace (S p + i)%nat with (p + S i)%nat by lia. }
  rewrite H0. destruct (v =? 0).
  - apply IH; [lia | done].
  - destruct (lookup_lt_is_Some_2 (DrumsConverter.pitchClasses c) p) as [cls Hcls];
      [unfold classCount in Hp; lia|].
    rewrite Hcls, (nth_lookup_Some _ _ _ _ Hcls). apply IH; [lia | done].
Qed.

Lemma stepNotes_rollNotes (roll : Tensor2D) (s : Z) (out : list Note) :
  Forall (fun row => length row = classCount c) roll ->
  DrumRollConverter.rollNotes c s roll out =
  Ok (DrumsLabelDecoder.stepNotes c s (rowLabel <$> roll) out).
Proof.
  intros Hroll. revert s out. induction Hroll as [|row roll Hrow _ IH]; intros s out;
    [done|].
  cbn [DrumRollConverter.rollNotes DrumsLabelDecoder.stepNotes fmap list_fmap].
  rewrite (classNotes_rowNotes s (rowLabel row)).
  - fold (classCount c). rewrite <- Hrow. apply IH.
  - lia.
  - intros i Hi. apply labelBit_rowLabel. lia.
Qed.

End DrumsLabels.

(** X13: the two drum decoders agree.  For a converter with at most 31
    classes and a roll of [classCount] columns, the label decoder, given the
    one-hot encoding (of depth [2 ^ classCount]) of the labels whose bit [p]
    is set when column [p] of the row is not 0, returns the notes the raw
    decoder returns for the roll. *)
Theorem drums_decoders_agree (c : DrumsConverter.t) (roll : Tensor2D) :
  (classCount c <= 31)%nat ->
  Forall (fun row => length row = classCount c) roll ->
  DrumsLabelDecoder.toNoteSequence c
    (oneHot (rowLabel <$> roll) (2 ^ Z.of_nat (classCount c))) =
  DrumRollConverter.toNoteSequence c roll.
Proof.
  intros Hc Hroll.
  unfold DrumsLabelDecoder.toNoteSequence, DrumRollConverter.toNoteSequence.
  rewrite argMax_oneHot.
  - symmetry. by apply stepNotes_rollNotes.
  - apply Forall_fmap. eapply Forall_impl; [exact Hroll|].
    intros row Hrow. cbn beta in Hrow. unfold compose. right.
    rewrite <- Hrow. apply rowLabel_bound.
Qed.

Lemma drums_decoders_agree_witness :
  DrumsLabelDecoder.toNoteSequence drums2
    (oneHot (rowLabel <$> [[1; 0]; [1; 1]]) (2 ^ Z.of_nat (classCount drums2))) =
  DrumRollConverter.toNoteSequence drums2 [[1; 0]; [1; 1]].
Proof.
  apply (drums_decoders_agree drums2 [[1; 0]; [1; 1]]).
  - cbn. lia.
  - repeat constructor.
Defined.

(** X14: round trip through the labels.  For a converter with at most 31
    classes and every note sequence, taking the class columns of the
    encoded roll, turning each row into its label (bit [p] = column [p]),
    one-hot encoding the labels and decoding them returns exactly one
    unit-length note, with the first pitch of its class, per active cell. *)
Theorem drums_label_roundtrip (args : DrumsConverter.Args) (notes : list Note) :
  (classCount (DrumsConverter.create args) <= 31)%nat ->
  exists roll,
    DrumsConverter.toTensor (DrumsConverter.create args) notes = Ok roll /\
    DrumsLabelDecoder.toNoteSequence (DrumsConverter.create args)
      (oneHot (rowLabel <$> classColumns (DrumsConverter.create args) roll)
              (2 ^ Z.of_nat (classCount (DrumsConverter.create args)))) =
    Ok (activeNotes (DrumsConverter.create args) notes).
Proof.
  intros Hc. set (c := DrumsConverter.create args) in *.
  eexists. split; [reflexivity|].
  assert (Forall (fun row => length row = classCount c)
            (classColumns c
               (TensorBuffer.toTensor2D
                  (fold_left (DrumsConverter.addNote c) notes
                     (DrumsConverter.initRoll c))))) as Hroll.
  { rewrite toTensor_classColumns by apply create_pitchToClass_bound.
    apply Forall_fmap, Forall_forall. intros s _. unfold compose.
    by rewrite length_fmap, length_seq. }
  unfold DrumsLabelDecoder.toNoteSequence.
  rewrite argMax_oneHot.
  - rewrite <- (stepNotes_rollNotes c Hc _ 0 [] Hroll).
    apply toNoteSequence_classColumns, create_pitchToClass_bound.
  - apply Forall_fmap. eapply Forall_impl; [exact Hroll|].
    intros row Hrow. cbn beta in Hrow. unfold compose. right.
    rewrite <- Hrow. apply rowLabel_bound.
Qed.

Lemma drums_label_roundtrip_witness :
  exists roll,
    DrumsConverter.toTensor
      (DrumsConverter.create (DrumsConverter.mkArgs 2 None (Some [[36]; [38]])))
      [mkNote 38 1 2; mkNote 36 1 2] = Ok roll /\
    DrumsLabelDecoder.toNoteSequence
      (DrumsConverter.create (DrumsConverter.mkArgs 2 None (Some [[36]; [38]])))
      (oneHot
         (rowLabel <$>
            classColumns
              (DrumsConverter.create (DrumsConverter.mkArgs 2 None (Some [[36]; [38]])))
              roll)
         (2 ^ Z.of_nat
                (classCount
                   (DrumsConverter.create
                      (DrumsConverter.mkArgs 2 None (Some [[36]; [38]])))))) =
    Ok (activeNotes
          (DrumsConverter.create (DrumsConverter.mkArgs 2 None (Some [[36]; [38]])))
          [mkNote 38 1 2; mkNote 36 1 2]).
Proof.
  apply (drums_label_roundtrip
           (DrumsConverter.mkArgs 2 None (Some [[36]; [38]]))
           [mkNote 38 1 2; mkNote 36 1 2]).
  cbn. lia.
Defined.

Section DrumsLabelsAnyTensor.
Context (c : DrumsConverter.t).

Lemma classNotes_flat_map (s label : Z) (p count : nat) (out : list Note) :
  DrumsLabelDecoder.classNotes c s label p count out =
  out ++ flat_map
           (fun q => if DrumsLabelDecoder.labelBit label q =? 0 then []
                     else [mkNote (canonicalPitch c q) s (s + 1)])
           (seq p count).
Proof.
  revert p out. induction count as [|count IH]; intros p out.
  - cbn. by rewrite app_nil_r.
  - cbn [DrumsLabelDecoder.classNotes seq flat_map]. rewrite IH.
    unfold canonicalPitch.
    destruct (DrumsLabelDecoder.labelBit label p =? 0); [done|].
    by rewrite <- app_assoc.
Qed.

Lemma stepNotes_flat_map (labels : list Z) (s0 : nat) (out : list Note) :
  DrumsLabelDecoder.stepNotes c (Z.of_nat s0) labels out =
  out ++ flat_map
           (fun i =>
              flat_map
                (fun q =>
                   if DrumsLabelDecoder.labelBit (nth i labels 0) q =? 0 then []
                   else [mkNote (canonicalPitch c q) (Z.of_nat (s0 + i))
                                (Z.of_nat (s0 + i) + 1)])
                (seq 0 (classCount c)))
           (seq 0 (length labels)).
Proof.
  revert s0 out. induction labels as [|label labels IH]; intros s0 out.
  - cbn. by rewrite app_nil_r.
  - cbn [DrumsLabelDecoder.stepNotes length seq flat_map nth].
    replace (Z.of_nat s0 + 1) with (Z.of_nat (S s0)) by lia.
    rewrite IH, classNotes_flat_map, <- app_assoc. fold (classCount c).
    rewrite Nat.add_0_r. do 2 f_equal.
    rewrite flat_map_seq_shift.
    apply flat_map_ext. intros i. cbn [nth].
    by replace (S s0 + i)%nat with (s0 + S i)%nat by lia.
Qed.

End DrumsLabelsAnyTensor.

(** X15: what the label decoder emits, for every tensor.  The call returns,
    and a note is among the decoded notes exactly when it is the unit-length
    note at some row [s] with the first pitch of some class [p] of the
    converter such that bit [p] of the label of row [s] is set; bits of the
    label at or above the number of classes are never read. *)
Theorem drums_label_decode_notes (c : DrumsConverter.t) (oh : Tensor2D) :
  exists notes,
    DrumsLabelDecoder.toNoteSequence c oh = Ok notes /\
    forall n,
      In n notes <->
      exists (s p : nat) (label : Z),
        argMax oh !! s = Some label /\
        (p < classCount c)%nat /\
        DrumsLabelDecoder.labelBit label p <> 0 /\
        n = mkNote (canonicalPitch c p) (Z.of_nat s) (Z.of_nat s + 1).
Proof.
  eexists. split; [reflexivity|]. intros n.
  change 0 with (Z.of_nat 0) at 1. rewrite stepNotes_flat_map, app_nil_l.
  rewrite in_flat_map. split.
  - intros (s & Hs & Hn). apply in_seq in Hs.
    apply in_flat_map in Hn as (p & Hp & Hn). apply in_seq in Hp.
    destruct (lookup_lt_is_Some_2 (argMax oh) s) as [label Hl]; [lia|].
    rewrite (nth_lookup_Some _ _ _ _ Hl) in Hn.
    exists s, p, label. cbn [Nat.add] in Hn.
    destruct (DrumsLabelDecoder.labelBit label p =? 0) eqn:Hb; [done|].
    apply Z.eqb_neq in Hb. destruct Hn as [<-|[]]. split_and!; [done|lia|done|done].
  - intros (s & p & label & Hl & Hp & Hb & ->).
    exists s. split; [apply in_seq; apply lookup_lt_Some in Hl; lia|].
    apply in_flat_map. exists p. split; [apply in_seq; lia|].
    rewrite (nth_lookup_Some _ _ _ _ Hl). cbn [Nat.add].
    apply Z.eqb_neq in Hb. rewrite Hb. by left.
Qed.


